(** * Land plot marketplace: order-status overlay and map geometry

    A shallow embedding of the client-side core of the repository:

    - [PlotManage] embeds [frontend/src/services/plotsManage.ts]
      (class [PlotManagementService]): the 30 second read-through cache of
      ordered plots, the enrichment of plot records with order status and
      the order-button predicate.
    - [MapView] embeds the helpers and the order-submission callback of the
      map component: [isValidGeometry], [getPolygonCentroid] and
      [handleOrderSubmit].

    JavaScript numbers are IEEE 754 binary64 values and are embedded as
    Rocq's primitive floats, which have exactly that semantics.  Timestamps
    ([Date.now()]) are integers and are embedded in [Z]. *)

From Stdlib Require Import ZArith Floats Uint63.
From stdpp Require Import base option list strings gmap.

Local Open Scope string_scope.

(** ** Completion of a computation: a value, or a thrown exception. *)

Inductive Completion (A : Type) : Type :=
  | Returned (a : A)
  | Thrown (message : string).
Arguments Returned {A} a.
Arguments Thrown {A} message.

Definition is_returned {A} (c : Completion A) : bool :=
  match c with Returned _ => true | Thrown _ => false end.

(* ================================================================== *)
(** * The plot management service *)
(* ================================================================== *)

Module PlotManage.

(** [interface OrderedPlot].  The declared type of [order_status] is the
    union ['pending' | 'approved' | 'rejected']; the value arrives from a
    JSON body and the code keeps a [default] branch for anything else, so
    the field is embedded as a string. *)
Record OrderedPlot : Type := mkOrderedPlot {
  plot_id : string;
  customer_name : string;
  order_status : string;
  order_date : string;
}.

(** *** Values that may sit in the cache

    [orderedPlotsCache] is assigned [data.ordered_plots || []] straight
    from a parsed JSON body, and both [isCacheValid] and
    [enrichPlotsWithOrderStatus] test [Array.isArray] at run time.  The
    value is therefore either an array, whose elements are records or
    [null] (reading [op.plot_id] of [null] throws), or some other truthy
    value, of which the code only observes whether [.length > 0]. *)
Inductive OrderedPlotsValue : Type :=
  | OPArray (elements : list (option OrderedPlot))
  | OPNonArray (lengthPositive : bool).

Definition isArray (v : OrderedPlotsValue) : bool :=
  match v with OPArray _ => true | OPNonArray _ => false end.

(** [v.length > 0]. *)
Definition lengthPositive (v : OrderedPlotsValue) : bool :=
  match v with
  | OPArray l => bool_decide (0 < length l)%nat
  | OPNonArray b => b
  end.


(** *** The service object and its cache *)

(** The mutable fields of [PlotManagementService] ([apiUrl] never changes
    and plays no part below). *)
Record Service : Type := mkService {
  orderedPlotsCache : OrderedPlotsValue;
  cacheTimestamp : Z;
  isLoading : bool;
}.

Definition cacheExpirationMs : Z := 30000.

(** The state a freshly constructed service is in. *)
Definition newService : Service :=
  {| orderedPlotsCache := OPArray []; cacheTimestamp := 0; isLoading := false |}.

(** [isCacheValid], [now] being the value of [Date.now()]. *)
Definition isCacheValid (now : Z) (s : Service) : bool :=
  bool_decide (now - cacheTimestamp s < cacheExpirationMs)%Z
  && isArray (orderedPlotsCache s).

(** [invalidateCache]. *)
Definition invalidateCache (s : Service) : Service :=
  {| orderedPlotsCache := OPArray []; cacheTimestamp := 0;
     isLoading := isLoading s |}.

(** *** [getOrderedPlots] as a task of the event loop

    The function is [async]: it runs without interruption from one [await]
    to the next, and other callbacks (among them other calls of
    [getOrderedPlots]) run while it is suspended.  A call is therefore a
    task that is suspended at one of its three [await]s or has settled;
    each function below is the code between two suspension points. *)

(** How [fetch(...)] settles: the promise rejects (network failure), or it
    fulfils with a response, of which the code reads [ok] and [status]. *)
Inductive FetchResult : Type :=
  | FetchRejected (message : string)
  | FetchResponse (ok : bool) (httpStatus : Z).

(** How [response.json()] settles: it rejects (the body is not JSON), or it
    fulfils with [null] (reading [data.ordered_plots] then throws), or with
    a value whose [ordered_plots] is falsy or absent ([None]) or truthy. *)
Inductive JsonResult : Type :=
  | JsonRejected (message : string)
  | JsonNull
  | JsonData (ordered_plots : option OrderedPlotsValue).

Inductive Task : Type :=
  | Waiting      (* suspended at [await new Promise(r => setTimeout(r, 100))] *)
  | Fetching     (* suspended at [await fetch(...)] *)
  | ReadingBody  (* suspended at [await response.json()] *)
  | Settled (result : Completion OrderedPlotsValue).

(** A task between [this.isLoading = true] and the [finally] block. *)
Definition inFlight (t : Task) : bool :=
  match t with Fetching | ReadingBody => true | _ => false end.

(** What a step of a task does: the service afterwards, the task
    afterwards, and whether the step called [fetch]. *)
Record StepResult : Type := mkStep {
  serviceAfter : Service;
  taskAfter : Task;
  issuedRequest : bool;
}.

Definition setLoading (b : bool) (s : Service) : Service :=
  {| orderedPlotsCache := orderedPlotsCache s;
     cacheTimestamp := cacheTimestamp s; isLoading := b |}.

(** [this.isLoading = true; try { const response = await fetch(...)]. *)
Definition beginFetch (s : Service) : StepResult :=
  {| serviceAfter := setLoading true s; taskAfter := Fetching;
     issuedRequest := true |}.

(** The [catch] block: it logs the error, whatever it is, and returns the
    cache when its length is positive, a new empty array otherwise. *)
Definition catchBlock (s : Service) (error : string)
  : Completion OrderedPlotsValue :=
  Returned (if lengthPositive (orderedPlotsCache s)
            then orderedPlotsCache s else OPArray []).

(** The [finally] block. *)
Definition finallyBlock (s : Service) : Service := setLoading false s.

(** The [try] block has thrown [error]: [catch], then [finally]. *)
Definition catchAndFinally (s : Service) (error : string) : StepResult :=
  {| serviceAfter := finallyBlock s;
     taskAfter := Settled (catchBlock s error);
     issuedRequest := false |}.

(** From the call to the first suspension point (or to the [return]). *)
Definition callStep (now : Z) (s : Service) : StepResult :=
  if isCacheValid now s then
    {| serviceAfter := s; taskAfter := Settled (Returned (orderedPlotsCache s));
       issuedRequest := false |}
  else if isLoading s then
    {| serviceAfter := s; taskAfter := Waiting; issuedRequest := false |}
  else beginFetch s.

(** The timer of the polling loop has fired: the loop condition is tested
    again; once it fails the cache is checked again, and the task fetches
    when the cache is not valid. *)
Definition timerStep (now : Z) (s : Service) : StepResult :=
  if isLoading s then
    {| serviceAfter := s; taskAfter := Waiting; issuedRequest := false |}
  else if isCacheValid now s then
    {| serviceAfter := s; taskAfter := Settled (Returned (orderedPlotsCache s));
       issuedRequest := false |}
  else beginFetch s.

(** The part of the [try] block that runs when [fetch] has settled:
    [await fetch(...)] rethrows a rejection, and a response that is not
    [ok] is turned into a thrown [Error]. *)
Definition afterFetch (r : FetchResult) : Completion unit :=
  match r with
  | FetchRejected e => Thrown e
  | FetchResponse false _ => Thrown "HTTP error! status"
  | FetchResponse true _ => Returned ()
  end.

Definition fetchStep (r : FetchResult) (s : Service) : StepResult :=
  match afterFetch r with
  | Thrown e => catchAndFinally s e
  | Returned _ =>
      {| serviceAfter := s; taskAfter := ReadingBody; issuedRequest := false |}
  end.

(** The part of the [try] block that runs when [response.json()] has
    settled, up to [const orderedPlots = data.ordered_plots || []]. *)
Definition afterBody (r : JsonResult) : Completion OrderedPlotsValue :=
  match r with
  | JsonRejected e => Thrown e
  | JsonNull => Thrown "Cannot read properties of null (reading 'ordered_plots')"
  | JsonData d => Returned (default (OPArray []) d)
  end.

(** [now] is the [Date.now()] stored in [cacheTimestamp]. *)
Definition bodyStep (r : JsonResult) (now : Z) (s : Service) : StepResult :=
  match afterBody r with
  | Thrown e => catchAndFinally s e
  | Returned orderedPlots =>
      {| serviceAfter :=
           finallyBlock {| orderedPlotsCache := orderedPlots;
                           cacheTimestamp := now; isLoading := isLoading s |};
         taskAfter := Settled (Returned orderedPlots);
         issuedRequest := false |}
  end.

(** *** Several calls sharing the singleton service

    [plotManagementService] is one object for the whole page.  The system
    state is that object, the tasks started so far (a call is named by its
    position) and a count of the [fetch] calls made. *)
Record System : Type := mkSystem {
  service : Service;
  tasks : list Task;
  requests : nat;
}.

Definition newSystem : System :=
  {| service := newService; tasks := []; requests := 0 |}.

Inductive Event : Type :=
  | Call (now : Z)
  | TimerFires (i : nat) (now : Z)
  | FetchSettles (i : nat) (r : FetchResult)
  | BodySettles (i : nat) (r : JsonResult) (now : Z)
  | Invalidate.

Definition applyStep (i : nat) (r : StepResult) (sys : System) : System :=
  {| service := serviceAfter r;
     tasks := <[i := taskAfter r]> (tasks sys);
     requests := if issuedRequest r then S (requests sys) else requests sys |}.

(** One turn of the event loop.  An event addressed to a task that is not
    suspended at the matching [await] cannot occur and changes nothing. *)
Definition step (e : Event) (sys : System) : System :=
  match e with
  | Call now =>
      let r := callStep now (service sys) in
      {| service := serviceAfter r;
         tasks := tasks sys ++ [taskAfter r];
         requests := if issuedRequest r then S (requests sys) else requests sys |}
  | TimerFires i now =>
      match tasks sys !! i with
      | Some Waiting => applyStep i (timerStep now (service sys)) sys
      | _ => sys
      end
  | FetchSettles i r =>
      match tasks sys !! i with
      | Some Fetching => applyStep i (fetchStep r (service sys)) sys
      | _ => sys
      end
  | BodySettles i r now =>
      match tasks sys !! i with
      | Some ReadingBody => applyStep i (bodyStep r now (service sys)) sys
      | _ => sys
      end
  | Invalidate =>
      {| service := invalidateCache (service sys); tasks := tasks sys;
         requests := requests sys |}
  end.

Fixpoint run (evs : list Event) (sys : System) : System :=
  match evs with
  | [] => sys
  | e :: evs' => run evs' (step e sys)
  end.

(** *** Vocabulary for statements about runs *)

(** No task is between [this.isLoading = true] and its [finally] block. *)
Definition noneInFlight (sys : System) : Prop :=
  ∀ i t, tasks sys !! i = Some t → inFlight t = false.

(** Task [a] is the only one that may be in flight. *)
Definition onlyInFlight (a : nat) (sys : System) : Prop :=
  ∀ i t, tasks sys !! i = Some t → inFlight t = true → i = a.

(** The flag [isLoading] tells whether a task is in flight, and at most one
    task is. *)
Definition singleFlight (sys : System) : Prop :=
  if isLoading (service sys)
  then ∃ a t, tasks sys !! a = Some t ∧ inFlight t = true ∧ onlyInFlight a sys
  else noneInFlight sys.

(** The event is not the settling of one of the promises task [a] awaits
    while in flight. *)
Definition notSettling (a : nat) (e : Event) : Prop :=
  match e with
  | FetchSettles i _ | BodySettles i _ _ => i ≠ a
  | _ => True
  end.

(** The event happens less than [cacheExpirationMs] after the instant [T]
    (as far as it reads the clock), and is not a cache invalidation. *)
Definition withinWindow (T : Z) (e : Event) : Prop :=
  match e with
  | Call now | TimerFires _ now => (now - T < cacheExpirationMs)%Z
  | FetchSettles _ _ | BodySettles _ _ _ => True
  | Invalidate => False
  end.

(** The event is the firing of the polling timer of task [b]. *)
Definition firesFor (b : nat) (e : Event) : bool :=
  match e with
  | TimerFires i _ => bool_decide (i = b)
  | _ => false
  end.

(** No task has settled with a rejection. *)
Definition noneRejected (sys : System) : Prop :=
  ∀ i c, tasks sys !! i = Some (Settled c) → is_returned c = true.

Section WithPlot.

(** [Plot] is declared in [../types/land].  The service reads [id] and
    reads or overrides [status]; every other property is copied by the
    object spread.  Those remaining properties are taken as one opaque
    component [rest]. *)
Context {Rest : Type}.

Record Plot : Type := mkPlot {
  id : string;
  status : string;
  rest : Rest;
}.

(** [interface PlotWithOrderStatus extends Plot]: the inherited part is the
    component [plot]; the optional properties are [option]s, [None] being
    an absent property. *)
Record PlotWithOrderStatus : Type := mkPlotWithOrderStatus {
  plot :> Plot;
  hasActiveOrder : bool;
  orderStatus : option string;
  orderDate : option string;
  customerName : option string;
}.

(** [getPlotStatusFromOrder]: the [switch] with its [default] branch. *)
Definition getPlotStatusFromOrder (orderStatus : string) : string :=
  if decide (orderStatus = "pending") then "pending"
  else if decide (orderStatus = "approved") then "taken"
  else if decide (orderStatus = "rejected") then "available"
  else "available".

(** [shouldShowOrderButton]. *)
Definition shouldShowOrderButton (p : PlotWithOrderStatus) : bool :=
  if hasActiveOrder p then bool_decide (orderStatus p = Some "rejected")
  else bool_decide (status p = "available").

(** *** Enrichment *)

(** [new Map(orderedPlots.map(op => [op.plot_id, op]))]: entries are
    inserted from left to right, a later entry replacing an earlier one
    with the same key; a [null] element makes [op.plot_id] throw. *)
Fixpoint orderedPlotsMap_from (m : gmap string OrderedPlot)
    (l : list (option OrderedPlot)) : Completion (gmap string OrderedPlot) :=
  match l with
  | [] => Returned m
  | None :: _ => Thrown "Cannot read properties of null (reading 'plot_id')"
  | Some op :: l' => orderedPlotsMap_from (<[plot_id op := op]> m) l'
  end.

(** The callback evaluation [op => [op.plot_id, op]] over the whole array
    precedes the construction of the map; both fail exactly when some
    element is [null], so they are fused here. *)
Definition orderedPlotsMap (l : list (option OrderedPlot))
  : Completion (gmap string OrderedPlot) :=
  orderedPlotsMap_from ∅ l.

Definition withStatus (s : string) (p : Plot) : Plot :=
  {| id := id p; status := s; rest := rest p |}.

(** The callback of [plots.map] inside the [try] block. *)
Definition enrichPlot (m : gmap string OrderedPlot) (p : Plot)
  : PlotWithOrderStatus :=
  match m !! id p with
  | Some orderInfo =>
      {| plot := withStatus (getPlotStatusFromOrder (order_status orderInfo)) p;
         hasActiveOrder := true;
         orderStatus := Some (order_status orderInfo);
         orderDate := Some (order_date orderInfo);
         customerName := Some (customer_name orderInfo) |}
  | None =>
      {| plot := p; hasActiveOrder := false;
         orderStatus := None; orderDate := None; customerName := None |}
  end.

(** The callback of [plots.map] inside the [catch] block:
    [{ ...plot, hasActiveOrder: false }]. *)
Definition withoutOrder (p : Plot) : PlotWithOrderStatus :=
  {| plot := p; hasActiveOrder := false;
     orderStatus := None; orderDate := None; customerName := None |}.

(** The [try] block of [enrichPlotsWithOrderStatus], from the point where
    [await this.getOrderedPlots()] has settled with [fetched]. *)
Definition enrichPlots_try (fetched : Completion OrderedPlotsValue)
    (plots : list Plot) : Completion (list PlotWithOrderStatus) :=
  match fetched with
  | Thrown e => Thrown e
  | Returned (OPNonArray _) => Thrown "orderedPlots is not an array"
  | Returned (OPArray l) =>
      match orderedPlotsMap l with
      | Thrown e => Thrown e
      | Returned m => Returned (enrichPlot m <$> plots)
      end
  end.

(** [enrichPlotsWithOrderStatus]: the [try] block, and the [catch] block
    when it throws. *)
Definition enrichPlotsWithOrderStatus (fetched : Completion OrderedPlotsValue)
    (plots : list Plot) : Completion (list PlotWithOrderStatus) :=
  match enrichPlots_try fetched plots with
  | Returned out => Returned out
  | Thrown _ => Returned (withoutOrder <$> plots)
  end.

End WithPlot.

Arguments Plot : clear implicits.
Arguments PlotWithOrderStatus : clear implicits.

(** *** Button text, order summary and the single-plot query *)

Section WithPlotText.

Context {Rest : Type}.

(** [getOrderButtonText]. *)
Definition getOrderButtonText (p : PlotWithOrderStatus Rest) : string :=
  if hasActiveOrder p then
    match orderStatus p with
    | Some s =>
        if decide (s = "pending") then "Order Pending"
        else if decide (s = "approved") then "Plot Taken"
        else if decide (s = "rejected") then "Reorder Plot"
        else "Order This Plot"
    | None => "Order This Plot"
    end
  else if decide (status p = "available") then "Order This Plot"
  else "Not Available".

(** [getOrderSummary].  [toLocaleDateString s] stands for
    [new Date(s).toLocaleDateString()], which depends on the locale of the
    browser.  An absent or empty string is falsy. *)
Context (toLocaleDateString : string → string).

Definition orElse (s : option string) (fallback : string) : string :=
  match s with
  | Some s => if decide (s = "") then fallback else s
  | None => fallback
  end.

Definition getOrderSummary (p : PlotWithOrderStatus Rest) : option string :=
  if negb (hasActiveOrder p) then None
  else
    let orderDate :=
      match orderDate p with
      | Some d => if decide (d = "") then "Unknown date"
                  else toLocaleDateString d
      | None => "Unknown date"
      end in
    let customerName := orElse (customerName p) "Unknown customer" in
    match orderStatus p with
    | Some s =>
        if decide (s = "pending")
        then Some ("Order pending since " ++ orderDate ++ " by " ++ customerName)
        else if decide (s = "approved")
        then Some ("Approved on " ++ orderDate ++ " for " ++ customerName)
        else if decide (s = "rejected")
        then Some ("Previous order rejected on " ++ orderDate)
        else None
    | None => None
    end.

End WithPlotText.

(** The order statuses of the declared union. *)
Definition declaredStatus (s : string) : Prop :=
  s = "pending" ∨ s = "approved" ∨ s = "rejected".

(** [isPlotOrdered].  The body of an ok response, as far as the function
    reads it: [response.json()] rejects, or gives [null], or gives a value
    whose [has_active_order] is a boolean or is absent ([None]). *)
Inductive OrderStatusBody : Type :=
  | StatusBodyRejected (message : string)
  | StatusBodyNull
  | StatusBodyData (has_active_order : option bool).

(** The [try] block; [body] is only read for an ok response. *)
Definition isPlotOrdered_try (r : FetchResult) (body : OrderStatusBody)
  : Completion bool :=
  match r with
  | FetchRejected e => Thrown e
  | FetchResponse false code =>
      if decide (code = 404%Z) then Returned false
      else Thrown "Failed to check plot order status"
  | FetchResponse true _ =>
      match body with
      | StatusBodyRejected e => Thrown e
      | StatusBodyNull =>
          Thrown "Cannot read properties of null (reading 'has_active_order')"
      | StatusBodyData flag => Returned (default false flag)
      end
  end.

Definition isPlotOrdered (r : FetchResult) (body : OrderStatusBody)
  : Completion bool :=
  match isPlotOrdered_try r body with
  | Returned b => Returned b
  | Thrown _ => Returned false
  end.

(** *** Sample records *)

Definition plotA : Plot unit :=
  {| id := "P-1"; status := "available"; rest := () |}.

Definition plotB : Plot unit :=
  {| id := "P-2"; status := "sold"; rest := () |}.

Definition orderA : OrderedPlot :=
  {| plot_id := "P-1"; customer_name := "Asha"; order_status := "approved";
     order_date := "2025-01-01" |}.

End PlotManage.

(* ================================================================== *)
(** * The map component *)
(* ================================================================== *)

Module MapView.

Import PlotManage.

#[local] Set Warnings "-inexact-float".
Local Open Scope float_scope.

(** ** JavaScript arithmetic helpers *)

(** [Math.min(a, b)] and [Math.max(a, b)]: [NaN] when an argument is [NaN];
    [-0] counts as smaller than [+0]. *)
Definition Math_min (a b : float) : float :=
  if is_nan a || is_nan b then nan
  else if a <? b then a
  else if b <? a then b
  else if get_sign a then a else b.

Definition Math_max (a b : float) : float :=
  if is_nan a || is_nan b then nan
  else if a <? b then b
  else if b <? a then a
  else if get_sign a then b else a.

(** ** Geometry values

    [isValidGeometry] takes [geometry: any].  A geometry is embedded down
    to the level the function inspects: its [type], the nesting of arrays
    in [coordinates], and for every point whether it is an array and which
    of its elements are numbers.  Polygons and rings are arrays, as they
    are in any GeoJSON-like value, and no array occurs twice in a
    geometry, as in any value read from JSON. *)

Inductive JsValue : Type :=
  | JNum (x : float)   (* [typeof v === "number"] *)
  | JNonNum.           (* any other value, [undefined] included *)

Inductive Point : Type :=
  | PArray (elements : list JsValue)
  | PNonArray.

Abbreviation Ring := (list Point).

Inductive Geometry : Type :=
  | Polygon (coordinates : list Ring)
  | MultiPolygon (coordinates : list (list Ring))
  | OtherGeometry.  (* falsy, or no [type], or no [coordinates], or another [type] *)

(** [isValidCoordinate]. *)
Definition isValidCoordinate (coord : Point) : bool :=
  match coord with
  | PNonArray => false
  | PArray [] | PArray [_] => false
  | PArray (lng :: lat :: _) =>
      match lng, lat with
      | JNum lng, JNum lat =>
          if negb (is_finite lng) || negb (is_finite lat) then false
          else if is_nan lng || is_nan lat then false
          else if (lng <? -180.1) || (180.1 <? lng) then false
          else if (lat <? -90.1) || (90.1 <? lat) then false
          else true
      | _, _ => false
      end
  end.

(** The number read at index [i] of a point.  The arithmetic below is only
    ever applied to points that passed [isValidCoordinate] or were produced
    by [normalizeCoordinate]; for anything else the operand is taken as
    [NaN], which is what [undefined] becomes in arithmetic. *)
Definition component (i : nat) (coord : Point) : float :=
  match coord with
  | PArray l => match l !! i with Some (JNum x) => x | _ => nan end
  | PNonArray => nan
  end.

(** [normalizeCoordinate]: a new two-element array. *)
Definition normalizeCoordinate (coord : Point) : Point :=
  let lng := component 0 coord in
  let lat := component 1 coord in
  let lng := Math_max (-180) (Math_min 180 lng) in
  let lat := Math_max (-90) (Math_min 90 lat) in
  PArray [JNum lng; JNum lat].

(** The [for] loop of the ring callback, started at some index: the ring
    from that index on, as the loop leaves it.  The loop stops at the first
    point that fails the check; the points before it have already been
    overwritten. *)
Fixpoint normalizeLoop (ring : list Point) : bool * list Point :=
  match ring with
  | [] => (true, [])
  | coord :: ring' =>
      if isValidCoordinate coord then
        let '(ok, ring'') := normalizeLoop ring' in
        (ok, normalizeCoordinate coord :: ring'')
      else (false, coord :: ring')
  end.

(** The statements after the loop: the ring is closed when its first and
    last points differ by more than [1e-10] in either axis. *)
Definition closeRing (ring : list Point) : list Point :=
  match head ring, last ring with
  | Some first, Some last =>
      if (1e-10 <? abs (component 0 first - component 0 last))
         || (1e-10 <? abs (component 1 first - component 1 last))
      then <[(length ring - 1)%nat :=
               PArray [JNum (component 0 first); JNum (component 1 first)]]> ring
      else ring
  | _, _ => ring
  end.

(** The callback passed to [every] for a ring: its result, and the ring as
    the callback leaves it. *)
Definition checkRing (ring : Ring) : bool * Ring :=
  if (length ring <? 4)%nat then (false, ring)
  else
    let '(ok, ring') := normalizeLoop ring in
    if ok then (true, closeRing ring') else (false, ring').

(** [rings.every(checkRing)]: [every] stops at the first ring for which the
    callback returns false; the rings after it are not visited. *)
Fixpoint everyRing (rings : list Ring) : bool * list Ring :=
  match rings with
  | [] => (true, [])
  | ring :: rings' =>
      let '(ok, ring') := checkRing ring in
      if ok then
        let '(ok', rings'') := everyRing rings' in (ok', ring' :: rings'')
      else (false, ring' :: rings')
  end.

(** The callback passed to [every] for a polygon of a MultiPolygon. *)
Definition checkPolygon (polygon : list Ring) : bool * list Ring :=
  match polygon with
  | [] => (false, [])
  | _ => everyRing polygon
  end.

Fixpoint everyPolygon (polygons : list (list Ring))
  : bool * list (list Ring) :=
  match polygons with
  | [] => (true, [])
  | polygon :: polygons' =>
      let '(ok, polygon') := checkPolygon polygon in
      if ok then
        let '(ok', polygons'') := everyPolygon polygons' in
        (ok', polygon' :: polygons'')
      else (false, polygon' :: polygons')
  end.

(** [isValidGeometry]: the boolean it returns, and the geometry object of
    the caller as the call leaves it. *)
Definition isValidGeometry (geometry : Geometry) : bool * Geometry :=
  match geometry with
  | OtherGeometry => (false, OtherGeometry)
  | Polygon [] => (false, Polygon [])
  | Polygon rings =>
      let '(ok, rings') := everyRing rings in (ok, Polygon rings')
  | MultiPolygon [] => (false, MultiPolygon [])
  | MultiPolygon polygons =>
      let '(ok, polygons') := everyPolygon polygons in
      (ok, MultiPolygon polygons')
  end.

(** ** Centroid *)

(** [getPolygonCentroid] is declared on [number[][][]].  Reading a missing
    element of a point gives [undefined], which arithmetic turns into
    [NaN]. *)
Definition coordinateAt (i : nat) (point : list float) : float :=
  default nan (point !! i).

(** The accumulation loop over consecutive points, from the current
    values of [area], [x] and [y]. *)
Fixpoint centroidLoop (ring : list (list float)) (area x y : float)
  : float * float * float :=
  match ring with
  | p0 :: (p1 :: _) as ring' =>
      let x0 := coordinateAt 0 p0 in
      let y0 := coordinateAt 1 p0 in
      let x1 := coordinateAt 0 p1 in
      let y1 := coordinateAt 1 p1 in
      let a := x0 * y1 - x1 * y0 in
      centroidLoop ring' (area + a) (x + (x0 + x1) * a) (y + (y0 + y1) * a)
  | _ => (area, x, y)
  end.

(** [ring.length - 1] as a number. *)
Definition lengthMinusOne (ring : list (list float)) : float :=
  of_uint63 (Uint63.of_Z (Z.of_nat (length ring) - 1)).

Definition getPolygonCentroid (coordinates : list (list (list float)))
  : float * float :=
  match coordinates !! 0%nat with
  | None => (0, 0)
  | Some ring =>
      if (length ring <? 4)%nat then (0, 0)
      else
        let '(area, x, y) := centroidLoop ring 0 0 0 in
        if abs area <? 1e-10 then
          let avgX :=
            fold_left (λ sum coord, sum + coordinateAt 0 coord) ring 0
            / lengthMinusOne ring in
          let avgY :=
            fold_left (λ sum coord, sum + coordinateAt 1 coord) ring 0
            / lengthMinusOne ring in
          (avgX, avgY)
        else
          let area := area * 0.5 in
          let centroidX := x / (6 * area) in
          let centroidY := y / (6 * area) in
          let clampedX := Math_max (-180) (Math_min 180 centroidX) in
          let clampedY := Math_max (-90) (Math_min 90 centroidY) in
          (clampedX, clampedY)
  end.

(** ** Vocabulary for statements about geometry *)

(** Clamping a number to the interval from [lo] to [hi]. *)
Definition clamp (lo hi v : float) : float :=
  if v <? lo then lo else if hi <? v then hi else v.

(** The coordinate check in words: the point is an array whose first two
    elements are finite numbers, the first within [-180.1, 180.1] and the
    second within [-90.1, 90.1]. *)
Definition coordinateCheck (coord : Point) : Prop :=
  ∃ lng lat others,
    coord = PArray (JNum lng :: JNum lat :: others)
    ∧ is_finite lng = true ∧ is_finite lat = true
    ∧ (-180.1 <=? lng) = true ∧ (lng <=? 180.1) = true
    ∧ (-90.1 <=? lat) = true ∧ (lat <=? 90.1) = true.

Definition ringAccepted (ring : Ring) : Prop :=
  (4 ≤ length ring)%nat ∧ Forall coordinateCheck ring.

(** Every ring has at least four points and every point passes the
    coordinate check. *)
Definition everyRingAccepted (geometry : Geometry) : Prop :=
  match geometry with
  | Polygon rings => Forall ringAccepted rings
  | MultiPolygon polygons => Forall (Forall ringAccepted) polygons
  | OtherGeometry => False
  end.

(** The geometry has at least one ring: a Polygon has a ring, a
    MultiPolygon has a polygon and each of its polygons has a ring. *)
Definition hasRings (geometry : Geometry) : Prop :=
  match geometry with
  | Polygon rings => rings ≠ []
  | MultiPolygon polygons => polygons ≠ [] ∧ Forall (λ p, p ≠ []) polygons
  | OtherGeometry => False
  end.

(** A point with both coordinates clamped to the geographic bounds. *)
Definition clampedPoint (coord : Point) : Point :=
  PArray [JNum (clamp (-180) 180 (component 0 coord));
          JNum (clamp (-90) 90 (component 1 coord))].

(** Two points differ by more than [1e-10] in either axis. *)
Definition farApart (p q : Point) : bool :=
  (1e-10 <? abs (component 0 p - component 0 q))
  || (1e-10 <? abs (component 1 p - component 1 q)).

(** What a ring that passes validation is overwritten with, point by
    point: every point is clamped, and the last point is a copy of the
    (clamped) first one when the clamped first and last points are far
    apart. *)
Definition overwrittenPoint (ring : Ring) (i : nat) (coord : Point) : Point :=
  let first := clampedPoint (default PNonArray (head ring)) in
  let final := clampedPoint (default PNonArray (last ring)) in
  if bool_decide (i = length ring - 1)%nat && farApart first final
  then first else clampedPoint coord.

Definition overwrittenRing (ring : Ring) : Ring :=
  imap (overwrittenPoint ring) ring.

Definition mapRings (f : Ring → Ring) (geometry : Geometry) : Geometry :=
  match geometry with
  | Polygon rings => Polygon (f <$> rings)
  | MultiPolygon polygons => MultiPolygon (fmap (M:=list) f <$> polygons)
  | OtherGeometry => OtherGeometry
  end.

(** The signed-area (shoelace) centroid of a ring, in the arithmetic of
    the language: with [c_i = x_i * y_(i+1) - x_(i+1) * y_i] summed over
    consecutive points, the signed area is half the sum of the [c_i], and
    the centroid is the sum of [(x_i + x_(i+1)) * c_i] (resp. [y]) divided
    by six times the signed area. *)
Definition crossTerm (p q : list float) : float :=
  coordinateAt 0 p * coordinateAt 1 q - coordinateAt 0 q * coordinateAt 1 p.

Definition sumOverEdges (f : list float → list float → float)
    (ring : list (list float)) : float :=
  fold_left (λ acc e, acc + f e.1 e.2) (zip ring (tail ring)) 0.

Definition shoelaceSum (ring : list (list float)) : float :=
  sumOverEdges crossTerm ring.

Definition signedArea (ring : list (list float)) : float :=
  shoelaceSum ring * 0.5.

Definition signedAreaCentroid (ring : list (list float)) : float * float :=
  (sumOverEdges
     (λ p q, (coordinateAt 0 p + coordinateAt 0 q) * crossTerm p q) ring
   / (6 * signedArea ring),
   sumOverEdges
     (λ p q, (coordinateAt 1 p + coordinateAt 1 q) * crossTerm p q) ring
   / (6 * signedArea ring)).

(** The arithmetic mean of the points of a ring. *)
Definition arithmeticMean (ring : list (list float)) : float * float :=
  let n := of_uint63 (Uint63.of_Z (Z.of_nat (length ring))) in
  (fold_left (λ sum coord, sum + coordinateAt 0 coord) ring 0 / n,
   fold_left (λ sum coord, sum + coordinateAt 1 coord) ring 0 / n).

(** A constant is a finite number below (above) zero. *)
Definition negativeFinite (f : float) : bool :=
  match Prim2SF f with S754_finite true _ _ => true | _ => false end.

Definition positiveFinite (f : float) : bool :=
  match Prim2SF f with S754_finite false _ _ => true | _ => false end.

(** ** Sample rings *)

(** The square [(0,0), (2,0), (2,2), (0,2), (0,0)]. *)
Definition squareRing : list (list float) :=
  [[0; 0]; [2; 0]; [2; 2]; [0; 2]; [0; 0]].

(** A closed ring within the geographic bounds that crosses itself: a
    triangle of area 1 at the origin walked clockwise, then a triangle of
    area 2 around longitude 100 walked counter-clockwise. *)
Definition bowtieRing : list (list float) :=
  [[0; 0]; [0; 2]; [1; 0]; [0; 0];
   [100; 0]; [102; 0]; [100; 2]; [100; 0]; [0; 0]].

(** A closed ring within the geographic bounds whose points lie on one
    line. *)
Definition collinearRing : list (list float) :=
  [[174; 84]; [180; 90]; [177; 87]; [174; 84]].

(** A ring of [number[][]] seen as a ring of [isValidGeometry]. *)
Definition asRing (ring : list (list float)) : list Point :=
  (λ coord, PArray (JNum <$> coord)) <$> ring.

(** An open ring with one longitude in the tolerated margin. *)
Definition openRing : list Point :=
  [PArray [JNum 180.05; JNum 0]; PArray [JNum 0; JNum 2];
   PArray [JNum 1; JNum 0; JNum 35]; PArray [JNum 7; JNum 7]].

Local Close Scope float_scope.

(** ** Order submission *)

(** [OrderData] is declared in [../types/land]; the callback reads the
    two name fields and passes the whole value on to [createOrder]. *)
Record OrderData : Type := mkOrderData {
  first_name : string;
  last_name : string;
}.

(** What [await plotService.createOrder(...)] throws when it rejects: an
    [Error], of which the message is read, or some other value. *)
Inductive ThrownValue : Type :=
  | ErrorObject (message : string)
  | OtherThrown.

Inductive CreateOrderResult : Type :=
  | OrderCreated
  | OrderFailed (err : ThrownValue).

(** [err instanceof Error ? err.message : 'Unknown error occurred']. *)
Definition errorMessage (err : ThrownValue) : string :=
  match err with
  | ErrorObject m => m
  | OtherThrown => "Unknown error occurred"
  end.

Section WithPlot.

Context {Rest : Type}.

(** The state [handleOrderSubmit] reads and writes: four pieces of
    component state and the singleton management service. *)
Record ViewState : Type := mkViewState {
  plots : list (PlotWithOrderStatus Rest);
  selectedPlot : option (PlotWithOrderStatus Rest);
  orderError : option string;
  isModalOpen : bool;
  managementService : Service;
}.

Definition setPlots (v : list (PlotWithOrderStatus Rest)) (st : ViewState) :=
  {| plots := v; selectedPlot := selectedPlot st; orderError := orderError st;
     isModalOpen := isModalOpen st; managementService := managementService st |}.

Definition setSelectedPlot (v : option (PlotWithOrderStatus Rest))
    (st : ViewState) :=
  {| plots := plots st; selectedPlot := v; orderError := orderError st;
     isModalOpen := isModalOpen st; managementService := managementService st |}.

Definition setOrderError (v : option string) (st : ViewState) :=
  {| plots := plots st; selectedPlot := selectedPlot st; orderError := v;
     isModalOpen := isModalOpen st; managementService := managementService st |}.

Definition setIsModalOpen (v : bool) (st : ViewState) :=
  {| plots := plots st; selectedPlot := selectedPlot st;
     orderError := orderError st; isModalOpen := v;
     managementService := managementService st |}.

Definition invalidateManagementCache (st : ViewState) :=
  {| plots := plots st; selectedPlot := selectedPlot st;
     orderError := orderError st; isModalOpen := isModalOpen st;
     managementService := invalidateCache (managementService st) |}.

(** The record the optimistic update puts in place of the selected plot;
    [nowIso] is [new Date().toISOString()]. *)
Definition optimisticPlot (orderData : OrderData) (nowIso : string)
    (p : PlotWithOrderStatus Rest) : PlotWithOrderStatus Rest :=
  {| plot := withStatus "pending" p;
     hasActiveOrder := true;
     orderStatus := Some "pending";
     orderDate := Some nowIso;
     customerName := Some (first_name orderData ++ " " ++ last_name orderData) |}.

(** [handleOrderSubmit] up to [await plotService.createOrder(...)]: the
    state when the callback suspends, and [originalPlots] ([None] when the
    callback has returned because no plot is selected). *)
Definition submitStart (orderData : OrderData) (nowIso : string)
    (st : ViewState)
  : ViewState * option (list (PlotWithOrderStatus Rest)) :=
  match selectedPlot st with
  | None => (setOrderError (Some "No plot selected.") st, None)
  | Some selected =>
      let st := setOrderError None st in
      let originalPlots := plots st in
      let optimisticPlots :=
        (λ p : PlotWithOrderStatus Rest,
           if decide (id p = id selected)
           then optimisticPlot orderData nowIso p else p) <$> plots st in
      (setPlots optimisticPlots st, Some originalPlots)
  end.

(** [handleOrderSubmit] from the moment [createOrder] settles, applied to
    the state of that moment. *)
Definition submitFinish (originalPlots : list (PlotWithOrderStatus Rest))
    (result : CreateOrderResult) (st : ViewState) : ViewState :=
  match result with
  | OrderCreated =>
      setIsModalOpen false (setSelectedPlot None (invalidateManagementCache st))
  | OrderFailed err =>
      setOrderError (Some ("Failed to submit order: " ++ errorMessage err))
        (setPlots originalPlots st)
  end.

(** The whole callback when nothing else runs while it is suspended. *)
Definition handleOrderSubmit (orderData : OrderData) (nowIso : string)
    (result : CreateOrderResult) (st : ViewState) : ViewState :=
  match submitStart orderData nowIso st with
  | (st', None) => st'
  | (st', Some originalPlots) => submitFinish originalPlots result st'
  end.

End WithPlot.

Arguments ViewState : clear implicits.

(** ** Styling *)

#[local] Set Warnings "-inexact-float".

(** The object [getPlotStyle] returns. *)
Record PlotStyle : Type := mkPlotStyle {
  weight : Z;
  color : string;
  fillOpacity : float;
  opacity : Z;
  fillColor : string;
  dashArray : option string;
}.

Section WithPlotStyle.

Context {Rest : Type}.

(** [getPlotStyle]: [baseStyle] overridden field by field in each branch. *)
Definition getPlotStyle (p : PlotWithOrderStatus Rest) (isHovered : bool)
  : PlotStyle :=
  let baseWeight := if isHovered then 4%Z else 2%Z in
  let baseFillOpacity := (if isHovered then 0.9 else 0.7)%float in
  let orderedFillOpacity := (if isHovered then 0.9 else 0.8)%float in
  let style fill fillOp dash :=
    {| weight := baseWeight; color := "#ffffff"; fillOpacity := fillOp;
       opacity := 1; fillColor := fill; dashArray := dash |} in
  if hasActiveOrder p then
    match orderStatus p with
    | Some s =>
        if decide (s = "pending")
        then style "#DC2626" orderedFillOpacity (Some "8,4")
        else if decide (s = "approved")
        then style "#DC2626" orderedFillOpacity None
        else if decide (s = "rejected")
        then style "#10B981" baseFillOpacity None
        else style "#DC2626" orderedFillOpacity None
    | None => style "#DC2626" orderedFillOpacity None
    end
  else if decide (status p = "available")
  then style "#10B981" baseFillOpacity None
  else if decide (status p = "taken")
  then style "#DC2626" (if isHovered then 0.8 else 0.6)%float None
  else if decide (status p = "pending")
  then style "#F59E0B" baseFillOpacity (Some "8,4")
  else style "#6B7280" baseFillOpacity None.

(** [getStatusBadgeClass]. *)
Definition getStatusBadgeClass (p : PlotWithOrderStatus Rest) : string :=
  if hasActiveOrder p then
    match orderStatus p with
    | Some s =>
        if decide (s = "pending")
        then "bg-red-100 text-red-800 border border-red-200"
        else if decide (s = "approved")
        then "bg-red-100 text-red-800 border border-red-200"
        else if decide (s = "rejected")
        then "bg-emerald-100 text-emerald-800 border border-emerald-200"
        else "bg-red-100 text-red-800 border border-red-200"
    | None => "bg-red-100 text-red-800 border border-red-200"
    end
  else if decide (status p = "available")
  then "bg-emerald-100 text-emerald-800 border border-emerald-200"
  else if decide (status p = "taken")
  then "bg-red-100 text-red-800 border border-red-200"
  else if decide (status p = "pending")
  then "bg-amber-100 text-amber-800 border border-amber-200"
  else "bg-gray-100 text-gray-800 border border-gray-200".

End WithPlotStyle.

(** ** Rendering and labels *)

(** The geometry [renderPlots] hands to the vector layer: a copy whose
    points are clamped once more; the plot's own geometry is not written
    to. *)
Definition geometryForRender (geometry : Geometry) : Geometry :=
  match geometry with
  | Polygon rings => Polygon (fmap (M:=list) normalizeCoordinate <$> rings)
  | MultiPolygon polygons =>
      MultiPolygon
        (fmap (M:=list) (fmap (M:=list) normalizeCoordinate) <$> polygons)
  | OtherGeometry => OtherGeometry
  end.

(** The coordinates of a geometry as [getPolygonCentroid] reads them.  The
    label code runs on plots that passed [isValidGeometry], whose points
    hold numbers only. *)
Definition numbersOf (coord : Point) : list float :=
  match coord with
  | PArray l => (λ v, match v with JNum x => x | JNonNum => nan end) <$> l
  | PNonArray => []
  end.

Definition ringsAsNumbers (rings : list Ring) : list (list (list float)) :=
  fmap (M:=list) numbersOf <$> rings.

(** The body of [chunk.forEach] in [createPlotLabels], up to the position
    it computes for [L.marker]: [None] when the callback returns before
    that, [Some (lat, lng)] otherwise.  [getPolygonCentroid] catches the
    error of reading [coordinates[0]] of [undefined] and returns the
    origin. *)
Definition labelPosition (geometry : Geometry) : option (float * float) :=
  let centroid :=
    match geometry with
    | Polygon rings => Some (getPolygonCentroid (ringsAsNumbers rings))
    | MultiPolygon (polygon :: _) =>
        Some (getPolygonCentroid (ringsAsNumbers polygon))
    | MultiPolygon [] => Some (0, 0)%float
    | OtherGeometry => None
    end in
  match centroid with
  | None => None
  | Some (lng, lat) =>
      if is_nan lng || is_nan lat then None
      else if (lng <? -180)%float || (180 <? lng)%float
              || (lat <? -90)%float || (90 <? lat)%float then None
      else Some (lat, lng)
  end.

(** [processLabelsInChunks]: the chunks handled by the successive calls
    of [processChunk], one animation frame each, from the current value
    of [index].  [frames] bounds the number of calls that are followed;
    [None] means that more calls than that are made. *)
Fixpoint processChunks {A} (frames : nat) (plots : list A)
    (chunkSize index : nat) : option (list (list A)) :=
  match frames with
  | O => None
  | S frames' =>
      let chunk := take chunkSize (drop index plots) in
      let index := (index + chunkSize)%nat in
      if (index <? length plots)%nat
      then (chunk ::.) <$> processChunks frames' plots chunkSize index
      else Some [chunk]
  end.

(** ** Loading plots *)

Inductive ConnectionStatus : Type := Connected | Disconnected | Checking.

Section WithLoadedPlot.

(** [P] is the type of the records [plotService.getAllPlots] returns, and
    [plotsHash data] stands for
    [JSON.stringify(data.map(p => ({ id: p.id, status: p.status })))]. *)
Context {P : Type} (plotsHash : list P → string).

(** The state [loadPlots] reads and writes. *)
Record LoadState : Type := mkLoadState {
  loadedPlots : list P;
  loading : bool;
  loadError : option string;
  connectionStatus : ConnectionStatus;
  loadingRef : bool;
  lastPlotsHash : string;
}.

(** How [await plotService.getAllPlots()] settles; [None] is a [null] or
    [undefined] result. *)
Inductive LoadResult : Type :=
  | PlotsResolved (plotsData : option (list P))
  | PlotsRejected (err : ThrownValue).

Definition maxRetries : nat := 3.

(** [loadPlots] from [loadingRef.current = true] to the [await]. *)
Definition attemptStart (st : LoadState) : LoadState :=
  {| loadedPlots := loadedPlots st; loading := true; loadError := None;
     connectionStatus := Checking; loadingRef := true;
     lastPlotsHash := lastPlotsHash st |}.

(** What the [try] block throws, if it throws. *)
Definition loadFailure (r : LoadResult) : option ThrownValue :=
  match r with
  | PlotsRejected err => Some err
  | PlotsResolved None | PlotsResolved (Some []) =>
      Some (ErrorObject
        "No land plots available. Please check if the database has been seeded with shapefile data.")
  | PlotsResolved (Some _) => None
  end.

(** [loadPlots(retryCount)] from the moment [getAllPlots] settles, the
    [finally] block included: the state afterwards and the delay of the
    retry timer, if one is set. *)
Definition attemptSettle (retryCount : nat) (r : LoadResult) (st : LoadState)
  : LoadState * option Z :=
  match loadFailure r with
  | None =>
      let plotsData := default [] (match r with
                                   | PlotsResolved d => d
                                   | PlotsRejected _ => None
                                   end) in
      ({| loadedPlots :=
            if decide (plotsHash plotsData = lastPlotsHash st)
            then loadedPlots st else plotsData;
          loading := loading st; loadError := loadError st;
          connectionStatus := Connected; loadingRef := false;
          lastPlotsHash := lastPlotsHash st |}, None)
  | Some err =>
      if (retryCount <? maxRetries)%nat then
        ({| loadedPlots := loadedPlots st; loading := loading st;
            loadError := loadError st; connectionStatus := Disconnected;
            loadingRef := false; lastPlotsHash := lastPlotsHash st |},
         Some (2000 * (Z.of_nat retryCount + 1))%Z)
      else
        ({| loadedPlots := loadedPlots st; loading := false;
            loadError := Some ("Failed to load plots: " ++ errorMessage err);
            connectionStatus := Disconnected; loadingRef := false;
            lastPlotsHash := lastPlotsHash st |}, None)
  end.

(** [loadPlots(retryCount)] and the retries it schedules, when nothing
    else runs in between: [results] are the outcomes of the successive
    [getAllPlots] calls.  The result is the state reached and the delays
    of the retry timers waited for.  When [results] runs out the last
    call is still suspended at its [await]. *)
Fixpoint loadPlotsRun (retryCount : nat) (results : list LoadResult)
    (st : LoadState) : LoadState * list Z :=
  if loadingRef st then (st, [])
  else
    match results with
    | [] => (attemptStart st, [])
    | r :: results' =>
        match attemptSettle retryCount r (attemptStart st) with
        | (st', None) => (st', [])
        | (st', Some delay) =>
            (* the timer callback: [loadingRef.current = false;
               loadPlots(retryCount + 1)] *)
            let '(st'', delays) := loadPlotsRun (S retryCount) results' st' in
            (st'', delay :: delays)
        end
    end.

End WithLoadedPlot.

Arguments LoadState : clear implicits.
Arguments LoadResult : clear implicits.

(** ** Vocabulary for further statements about geometry *)

(** A point is a pair of finite numbers within the geographic bounds. *)
Definition inBoundsPoint (coord : Point) : Prop :=
  ∃ lng lat,
    coord = PArray [JNum lng; JNum lat]
    ∧ is_finite lng = true ∧ is_finite lat = true
    ∧ (-180 <=? lng)%float = true ∧ (lng <=? 180)%float = true
    ∧ (-90 <=? lat)%float = true ∧ (lat <=? 90)%float = true.

Definition everyPoint (P : Point → Prop) (geometry : Geometry) : Prop :=
  match geometry with
  | Polygon rings => Forall (Forall P) rings
  | MultiPolygon polygons => Forall (Forall (Forall P)) polygons
  | OtherGeometry => True
  end.

(** The shape of a geometry: its type and the number of points of every
    ring. *)
Inductive Shape : Type :=
  | PolygonShape (ringLengths : list nat)
  | MultiPolygonShape (ringLengths : list (list nat))
  | OtherShape.

Definition shapeOf (geometry : Geometry) : Shape :=
  match geometry with
  | Polygon rings => PolygonShape (length <$> rings)
  | MultiPolygon polygons =>
      MultiPolygonShape (fmap (M:=list) length <$> polygons)
  | OtherGeometry => OtherShape
  end.

End MapView.

(* ================================================================== *)
(** * Properties of the plot management service *)
(* ================================================================== *)

Section PlotManageFacts.

Import PlotManage.
Context {Rest : Type}.
Implicit Types (p : Plot Rest) (q : PlotWithOrderStatus Rest).

(** ** The order button *)

(** C2.  [shouldShowOrderButton] on a plot with an active order is true
    exactly when the order status is "rejected"; on a plot without an
    active order it is true exactly when the plot status is "available",
    so it is false for "sold". *)
Theorem shouldShowOrderButton_spec q :
  (hasActiveOrder q = true →
     (orderStatus q = Some "rejected" → shouldShowOrderButton q = true)
     ∧ (orderStatus q ≠ Some "rejected" → shouldShowOrderButton q = false))
  ∧ (hasActiveOrder q = false →
     (shouldShowOrderButton q = true ↔ status q = "available")
     ∧ (status q = "sold" → shouldShowOrderButton q = false)).
Proof.
  unfold shouldShowOrderButton. split; intros ->.
  - split; intros H.
    + by apply bool_decide_eq_true.
    + by apply bool_decide_eq_false.
  - split.
    + apply bool_decide_eq_true.
    + intros ->. by apply bool_decide_eq_false.
Qed.

(** ** Enrichment *)

(** The map built from an array of records: a key is bound to the last
    record of the array that carries it. *)
Lemma orderedPlotsMap_from_records (ops : list OrderedPlot) :
  ∀ m : gmap string OrderedPlot,
    ∃ m', orderedPlotsMap_from m (Some <$> ops) = Returned m'
      ∧ ∀ k, m' !! k =
          match last (filter (λ op, plot_id op = k) ops) with
          | Some op => Some op
          | None => m !! k
          end.
Proof.
  induction ops as [|op ops IH]; intros m; simpl.
  - exists m. split; [done|]. intros k. done.
  - destruct (IH (<[plot_id op := op]> m)) as (m' & Hm' & Hlook).
    exists m'. split; [done|]. intros k. rewrite Hlook.
    rewrite filter_cons. case_decide as Hk.
    + subst k. destruct (filter _ ops) as [|op' l] eqn:Hf; simpl.
      * by rewrite lookup_insert_eq.
      * rewrite last_cons. by destruct (last l).
    + destruct (last _); [done|]. by rewrite lookup_insert_ne.
Qed.

Lemma last_filter_Some {A} (P : A → Prop) `{!∀ x, Decision (P x)}
    (l : list A) (x : A) :
  last (filter P l) = Some x →
  ∃ k, l !! k = Some x ∧ P x
       ∧ ∀ j y, (k < j)%nat → l !! j = Some y → ¬ P y.
Proof.
  induction l as [|a l IH]; [done|].
  rewrite filter_cons. destruct (last (filter P l)) as [z|] eqn:Hz.
  - intros Hx.
    assert (z = x) as ->.
    { case_decide; [|congruence]. rewrite last_cons, Hz in Hx. congruence. }
    destruct (IH eq_refl) as (k & Hk & HP & Hlast).
    exists (S k). split_and!; [done..|].
    intros [|j] y Hj; [lia|]. simpl. apply Hlast. lia.
  - assert (filter P l = []) as Hnil.
    { destruct (filter P l) as [|b l'] using rev_ind; [done|].
      by rewrite last_snoc in Hz. }
    case_decide as Ha; [|by rewrite Hz].
    rewrite Hnil. simpl. intros [= ->].
    exists 0%nat. split_and!; [done..|].
    intros [|j] y Hj Hy; [lia|]. simpl in Hy. intros HPy.
    assert (y ∈ filter P l) as Hin.
    { apply list_elem_of_filter. split; [done|]. by eapply list_elem_of_lookup_2. }
    rewrite Hnil in Hin. by apply not_elem_of_nil in Hin.
Qed.

Lemma last_filter_None {A} (P : A → Prop) `{!∀ x, Decision (P x)}
    (l : list A) :
  last (filter P l) = None ↔ ∀ x, x ∈ l → ¬ P x.
Proof.
  rewrite last_None. split.
  - intros Hnil x Hx HP.
    assert (x ∈ filter P l) as Hin by by apply list_elem_of_filter.
    rewrite Hnil in Hin. by apply not_elem_of_nil in Hin.
  - intros Hall. induction l as [|a l IH]; [done|].
    rewrite filter_cons. case_decide as Ha.
    + exfalso. eapply Hall; [|done]. left.
    + apply IH. intros x Hx. apply Hall. by right.
Qed.

(** C1.  Enrichment against an array of ordered-plot records.  The output
    has one record per input plot, in the same order.  When a record with
    the plot's id exists, the output carries the fields of such a record
    (the last one in the array, which is the one the map keeps) with
    [hasActiveOrder = true], and its status is the image of the order
    status: pending to "pending", approved to "taken", rejected to
    "available".  When none exists, the output is the plot itself with
    [hasActiveOrder = false]. *)
Theorem enrichPlots_order_overlay (ops : list OrderedPlot)
    (plots : list (Plot Rest)) (i : nat) p :
  plots !! i = Some p →
  ∃ out q,
    enrichPlotsWithOrderStatus (Returned (OPArray (Some <$> ops))) plots
      = Returned out
    ∧ length out = length plots
    ∧ out !! i = Some q
    ∧ id q = id p ∧ rest q = rest p
    ∧ ((∃ op, op ∈ ops ∧ plot_id op = id p) →
        ∃ k op, ops !! k = Some op ∧ plot_id op = id p
          ∧ (∀ j op', (k < j)%nat → ops !! j = Some op' → plot_id op' ≠ id p)
          ∧ hasActiveOrder q = true
          ∧ orderStatus q = Some (order_status op)
          ∧ orderDate q = Some (order_date op)
          ∧ customerName q = Some (customer_name op)
          ∧ (order_status op = "pending" → status q = "pending")
          ∧ (order_status op = "approved" → status q = "taken")
          ∧ (order_status op = "rejected" → status q = "available"))
    ∧ ((∀ op, op ∈ ops → plot_id op ≠ id p) →
        hasActiveOrder q = false ∧ status q = status p
        ∧ q = withoutOrder p).
Proof.
  intros Hp.
  destruct (orderedPlotsMap_from_records ops ∅) as (m & Hm & Hlook).
  exists (enrichPlot m <$> plots), (enrichPlot m p).
  unfold enrichPlotsWithOrderStatus, enrichPlots_try, orderedPlotsMap.
  rewrite Hm. split_and!.
  - done.
  - by rewrite length_fmap.
  - by rewrite list_lookup_fmap, Hp.
  - unfold enrichPlot. by destruct (m !! id p).
  - unfold enrichPlot. by destruct (m !! id p).
  - intros (op0 & Hin & Hid).
    specialize (Hlook (id p)).
    destruct (last _) as [op|] eqn:Hlast.
    + destruct (last_filter_Some _ _ _ Hlast) as (k & Hk & Hkid & Hafter).
      exists k, op. unfold enrichPlot. rewrite Hlook. simpl.
      split_and!; try done.
      * intros ->. done.
      * intros ->. done.
      * intros ->. done.
    + pose proof (proj1 (last_filter_None _ _) Hlast op0 Hin) as Hno.
      by destruct Hno.
  - intros Hnone. specialize (Hlook (id p)).
    assert (last (filter (λ op, plot_id op = id p) ops) = None) as Hlast.
    { apply (last_filter_None (λ op, plot_id op = id p)).
      intros op Hin. by apply Hnone. }
    rewrite Hlast, lookup_empty in Hlook.
    unfold enrichPlot. by rewrite Hlook.
Qed.

(** C5.  [enrichPlotsWithOrderStatus] never throws, whatever
    [getOrderedPlots] settled with; and whenever its [try] block throws,
    the result is the whole input list, each plot unchanged and given
    [hasActiveOrder = false]. *)
Theorem enrichPlots_degrades_on_error
    (fetched : Completion OrderedPlotsValue) (plots : list (Plot Rest)) :
  ∃ out,
    enrichPlotsWithOrderStatus fetched plots = Returned out
    ∧ length out = length plots
    ∧ (is_returned (enrichPlots_try fetched plots) = false →
       ∀ i p, plots !! i = Some p →
         ∃ q, out !! i = Some q ∧ plot q = p ∧ hasActiveOrder q = false
              ∧ orderStatus q = None ∧ orderDate q = None
              ∧ customerName q = None).
Proof.
  unfold enrichPlotsWithOrderStatus.
  destruct (enrichPlots_try fetched plots) as [out|e] eqn:Htry.
  - exists out. split_and!; [done| |done].
    unfold enrichPlots_try in Htry.
    destruct fetched as [[l|b]|e]; try done.
    destruct (orderedPlotsMap l); [|done].
    injection Htry as <-. by rewrite length_fmap.
  - exists (withoutOrder <$> plots). split_and!; [done| |].
    + by rewrite length_fmap.
    + intros _ i p Hp. exists (withoutOrder p).
      by rewrite list_lookup_fmap, Hp.
Qed.

(** The [try] block throws exactly when [getOrderedPlots] rejected, or
    returned something that is not an array, or an array with a [null]
    element. *)
Lemma enrichPlots_try_throws_iff
    (fetched : Completion OrderedPlotsValue) (plots : list (Plot Rest)) :
  is_returned (enrichPlots_try fetched plots) = false ↔
    match fetched with
    | Thrown _ => True
    | Returned (OPNonArray _) => True
    | Returned (OPArray l) => None ∈ l
    end.
Proof.
  unfold enrichPlots_try. destruct fetched as [[l|b]|e]; [|done..].
  unfold orderedPlotsMap. generalize (∅ : gmap string OrderedPlot).
  induction l as [|[op|] l IH]; intros m; simpl.
  - split; [done|]. by intros ?%not_elem_of_nil.
  - rewrite IH. split.
    + intros H. by right.
    + by intros [?|?]%elem_of_cons.
  - split; [|done]. intros _. left.
Qed.

(** ** The cache: failure of the fetch *)

(** C4.  When the fetch a call awaits fails (the promise rejects, or the
    response is not ok), the call returns to its caller: it settles with
    the cache contents when these have positive length and with an empty
    array otherwise; the cache itself is left as it was and [isLoading] is
    reset. *)
Theorem getOrderedPlots_fetch_failure (sys : System) (i : nat)
    (r : FetchResult) :
  tasks sys !! i = Some Fetching →
  ((∃ e, r = FetchRejected e) ∨ (∃ code, r = FetchResponse false code)) →
  let cache := orderedPlotsCache (service sys) in
  let sys' := step (FetchSettles i r) sys in
  ∃ result,
    tasks sys' !! i = Some (Settled (Returned result))
    ∧ (lengthPositive cache = true → result = cache)
    ∧ (lengthPositive cache = false → result = OPArray [])
    ∧ orderedPlotsCache (service sys') = cache
    ∧ isLoading (service sys') = false
    ∧ requests sys' = requests sys.
Proof.
  intros Hi Hr cache sys'.
  assert (∃ e, sys' = applyStep i (catchAndFinally (service sys) e) sys)
    as [e ->].
  { subst sys'. unfold step. rewrite Hi. unfold fetchStep.
    destruct Hr as [[e ->]|[code ->]]; simpl; eauto. }
  exists (if lengthPositive cache then cache else OPArray []).
  simpl. split_and!; try done.
  - apply list_lookup_insert_eq. by eapply lookup_lt_Some.
  - by intros ->.
  - by intros ->.
Qed.

(** The same holds when the body of an ok response cannot be used. *)
Lemma getOrderedPlots_body_failure (sys : System) (i : nat) (r : JsonResult)
    (now : Z) :
  tasks sys !! i = Some ReadingBody →
  is_returned (afterBody r) = false →
  let cache := orderedPlotsCache (service sys) in
  tasks (step (BodySettles i r now) sys) !! i
    = Some (Settled (Returned (if lengthPositive cache then cache
                               else OPArray []))).
Proof.
  intros Hi Hr. simpl. rewrite Hi. unfold bodyStep.
  destruct (afterBody r); [done|]. simpl.
  apply list_lookup_insert_eq. by eapply lookup_lt_Some.
Qed.

(** No call of [getOrderedPlots] ever settles by rejecting. *)
Lemma step_noneRejected (e : Event) (sys : System) :
  noneRejected sys → noneRejected (step e sys).
Proof.
  intros Hsys i c. destruct e as [now|j now|j r|j r now|]; simpl.
  - intros [Hi|[_ Hi]]%lookup_app_Some; [by eapply Hsys|].
    apply list_lookup_singleton_Some in Hi as [_ Hi]. revert Hi.
    unfold callStep, beginFetch.
    repeat case_match; simpl; by intros [= <-].
  - destruct (tasks sys !! j) as [[| | |c']|] eqn:Hj; try apply Hsys.
    simpl. destruct (decide (j = i)) as [->|Hne].
    + rewrite list_lookup_insert_eq by by eapply lookup_lt_Some.
      unfold timerStep, beginFetch. repeat case_match; simpl; by intros [= <-].
    + rewrite list_lookup_insert_ne by done. apply Hsys.
  - destruct (tasks sys !! j) as [[| | |c']|] eqn:Hj; try apply Hsys.
    simpl. destruct (decide (j = i)) as [->|Hne].
    + rewrite list_lookup_insert_eq by by eapply lookup_lt_Some.
      unfold fetchStep. destruct (afterFetch r); simpl; by intros [= <-].
    + rewrite list_lookup_insert_ne by done. apply Hsys.
  - destruct (tasks sys !! j) as [[| | |c']|] eqn:Hj; try apply Hsys.
    simpl. destruct (decide (j = i)) as [->|Hne].
    + rewrite list_lookup_insert_eq by by eapply lookup_lt_Some.
      unfold bodyStep. destruct (afterBody r); simpl; by intros [= <-].
    + rewrite list_lookup_insert_ne by done. apply Hsys.
  - apply Hsys.
Qed.

Lemma run_noneRejected (evs : list Event) (sys : System) :
  noneRejected sys → noneRejected (run evs sys).
Proof.
  revert sys. induction evs as [|e evs IH]; intros sys Hsys; [done|].
  simpl. by apply IH, step_noneRejected.
Qed.

(** ** The cache: concurrent calls *)

Lemma lookup_insert_task (l : list Task) (i j : nat) (t : Task) :
  is_Some (l !! i) →
  <[i := t]> l !! j = if decide (i = j) then Some t else l !! j.
Proof.
  intros Hi. case_decide as Hij.
  - subst j. apply list_lookup_insert_eq. by apply lookup_lt_is_Some.
  - by apply list_lookup_insert_ne.
Qed.

Lemma lookup_insert_task_same (l : list Task) (i : nat) (t0 t : Task) :
  l !! i = Some t0 → <[i := t]> l !! i = Some t.
Proof. intros Hi. apply list_lookup_insert_eq. by eapply lookup_lt_Some. Qed.

(** While task [a] is in flight and its promises stay pending, nothing
    that happens issues a request, resets [isLoading] or touches [a]. *)
Lemma step_while_in_flight (e : Event) (sys : System) (a : nat) (ta : Task) :
  isLoading (service sys) = true →
  tasks sys !! a = Some ta → inFlight ta = true →
  onlyInFlight a sys → notSettling a e →
  requests (step e sys) = requests sys
  ∧ isLoading (service (step e sys)) = true
  ∧ tasks (step e sys) !! a = Some ta
  ∧ onlyInFlight a (step e sys).
Proof.
  intros Hload Ha Hta Honly He.
  destruct e as [now|j now|j r|j r now|]; simpl.
  - unfold callStep. rewrite Hload.
    destruct (isCacheValid now (service sys)); simpl;
      (split_and!; [done|done|by apply lookup_app_l_Some|]);
      intros i t [Hi|[_ Hi]]%lookup_app_Some Ht;
      try (by eapply Honly);
      apply list_lookup_singleton_Some in Hi as [_ <-]; done.
  - destruct (tasks sys !! j) as [[| | |c]|] eqn:Hj; try done.
    unfold timerStep, onlyInFlight, applyStep. rewrite Hload. simpl.
    rewrite list_insert_id by done. done.
  - destruct (tasks sys !! j) as [[| | |c]|] eqn:Hj; try done.
    destruct He. by eapply Honly.
  - destruct (tasks sys !! j) as [[| | |c]|] eqn:Hj; try done.
    destruct He. by eapply Honly.
  - done.
Qed.

Lemma run_while_in_flight (evs : list Event) (sys : System) (a : nat)
    (ta : Task) :
  isLoading (service sys) = true →
  tasks sys !! a = Some ta → inFlight ta = true →
  onlyInFlight a sys → Forall (notSettling a) evs →
  requests (run evs sys) = requests sys
  ∧ isLoading (service (run evs sys)) = true
  ∧ tasks (run evs sys) !! a = Some ta
  ∧ onlyInFlight a (run evs sys).
Proof.
  revert sys. induction evs as [|e evs IH]; intros sys Hload Ha Hta Honly Hevs.
  - done.
  - apply Forall_cons in Hevs as [He Hevs].
    destruct (step_while_in_flight e sys a ta) as (Hreq & ? & ? & ?);
      [done..|].
    simpl. rewrite <- Hreq. by apply IH.
Qed.

(** While the cache holds an array stored less than 30 seconds ago and no
    task is in flight, nothing that happens issues a request or changes
    the service; a waiting task whose timer fires returns the cache, and
    every other task stays as it is. *)
Lemma step_in_window (e : Event) (sys : System)
    (l : list (option OrderedPlot)) (T : Z) :
  service sys =
    {| orderedPlotsCache := OPArray l; cacheTimestamp := T;
       isLoading := false |} →
  noneInFlight sys → withinWindow T e →
  service (step e sys) = service sys
  ∧ requests (step e sys) = requests sys
  ∧ noneInFlight (step e sys)
  ∧ ∀ b t, tasks sys !! b = Some t →
      tasks (step e sys) !! b =
        Some (match t with
              | Waiting => if firesFor b e
                           then Settled (Returned (OPArray l)) else Waiting
              | _ => t
              end).
Proof.
  intros Hsvc Hnone He.
  assert (∀ now, (now - T < cacheExpirationMs)%Z →
            isCacheValid now (service sys) = true) as Hvalid.
  { intros now Hnow. unfold isCacheValid. rewrite Hsvc. simpl.
    by rewrite bool_decide_eq_true_2. }
  destruct e as [now|j now|j r|j r now|]; simpl in *.
  - unfold callStep. rewrite (Hvalid now He). simpl. split_and!; try done.
    + intros i t [Hi|[_ Hi]]%lookup_app_Some; [by eapply Hnone|].
      by apply list_lookup_singleton_Some in Hi as [_ <-].
    + intros b t Hb. rewrite (lookup_app_l_Some _ _ _ _ Hb).
      by destruct t.
  - destruct (tasks sys !! j) as [[| | |c]|] eqn:Hj;
      try (split_and!; [done..|]; intros b t Hb; rewrite Hb;
           destruct t; try done;
           case_bool_decide; [congruence|done]).
    assert (isLoading (service sys) = false) as Hload by by rewrite Hsvc.
    assert (orderedPlotsCache (service sys) = OPArray l) as Hcache
      by by rewrite Hsvc.
    unfold timerStep, noneInFlight, applyStep.
    rewrite Hload, (Hvalid now He), Hcache. simpl. split_and!; try done.
    + intros i t. rewrite lookup_insert_task by done.
      case_decide; [by intros [= <-]|by apply Hnone].
    + intros b t Hb. rewrite lookup_insert_task by done.
      case_decide as Hjb.
      * subst b. rewrite Hj in Hb. injection Hb as <-.
        by rewrite bool_decide_eq_true_2.
      * rewrite Hb. destruct t; try done.
        by rewrite bool_decide_eq_false_2.
  - destruct (tasks sys !! j) as [[| | |c]|] eqn:Hj;
      try (split_and!; [done..|]; intros b t Hb; rewrite Hb; by destruct t).
    by specialize (Hnone _ _ Hj).
  - destruct (tasks sys !! j) as [[| | |c]|] eqn:Hj;
      try (split_and!; [done..|]; intros b t Hb; rewrite Hb; by destruct t).
    by specialize (Hnone _ _ Hj).
  - done.
Qed.

Lemma run_in_window (evs : list Event) (sys : System)
    (l : list (option OrderedPlot)) (T : Z) :
  service sys =
    {| orderedPlotsCache := OPArray l; cacheTimestamp := T;
       isLoading := false |} →
  noneInFlight sys → Forall (withinWindow T) evs →
  service (run evs sys) = service sys
  ∧ requests (run evs sys) = requests sys
  ∧ noneInFlight (run evs sys)
  ∧ ∀ b t, tasks sys !! b = Some t →
      tasks (run evs sys) !! b =
        Some (match t with
              | Waiting => if existsb (firesFor b) evs
                           then Settled (Returned (OPArray l)) else Waiting
              | _ => t
              end).
Proof.
  revert sys. induction evs as [|e evs IH]; intros sys Hsvc Hnone Hevs.
  - simpl. split_and!; try done. intros b t Hb. by destruct t.
  - apply Forall_cons in Hevs as [He Hevs].
    destruct (step_in_window e sys l T) as (Hs & Hr & Hn & Ht); [done..|].
    destruct (IH (step e sys)) as (Hs' & Hr' & Hn' & Ht');
      [by rewrite Hs|done..|].
    simpl. split_and!; [congruence|congruence|done|].
    intros b t Hb. rewrite (Ht' _ _ (Ht _ _ Hb)).
    destruct t; try done. by destruct (firesFor b e).
Qed.

(** A call made while another one is in flight and the cache is not valid
    enters the polling loop and issues no request. *)
Lemma callStep_while_loading (now : Z) (s : Service) :
  isLoading s = true → isCacheValid now s = false →
  callStep now s
    = {| serviceAfter := s; taskAfter := Waiting; issuedRequest := false |}.
Proof. intros Hload Hvalid. unfold callStep. by rewrite Hvalid, Hload. Qed.

Lemma run_app (evs1 evs2 : list Event) (sys : System) :
  run (evs1 ++ evs2) sys = run evs2 (run evs1 sys).
Proof. revert sys. induction evs1 as [|e evs1 IH]; intros sys; simpl; auto. Qed.

Lemma existsb_firesFor (b : nat) (evs : list Event) :
  (∃ now, TimerFires b now ∈ evs) → existsb (firesFor b) evs = true.
Proof.
  intros [now Hin]. apply existsb_exists. exists (TimerFires b now).
  split; [by apply list_elem_of_In|]. simpl. by apply bool_decide_eq_true_2.
Qed.

(** C9.  A call is made on a service that is idle and whose cache is not
    valid, so it fetches (task [a]).  Whatever happens while that fetch is
    pending ([evs1], [evs2]: further calls, timers, invalidations), no
    other request is issued.  The fetch succeeds and the array [l] is
    stored at instant [T].  From then on, as long as the clock readings
    stay below [T + 30000] and the cache is not invalidated ([evs3]), the
    request count stays at one more than before the first call, and every
    call that was waiting for the fetch returns the cached array [l] as
    soon as its polling timer fires. *)
Theorem concurrent_calls_share_one_fetch (sys : System) (t0 : Z)
    (evs1 evs2 evs3 : list Event) (code : Z) (body : JsonResult)
    (l : list (option OrderedPlot)) (T : Z) :
  singleFlight sys →
  isLoading (service sys) = false →
  isCacheValid t0 (service sys) = false →
  afterBody body = Returned (OPArray l) →
  Forall (notSettling (length (tasks sys))) evs1 →
  Forall (notSettling (length (tasks sys))) evs2 →
  Forall (withinWindow T) evs3 →
  let a := length (tasks sys) in
  let stored :=
    run (Call t0 :: evs1 ++ FetchSettles a (FetchResponse true code)
                 :: evs2 ++ [BodySettles a body T]) sys in
  let final := run evs3 stored in
  requests stored = S (requests sys)
  ∧ requests final = S (requests sys)
  ∧ tasks final !! a = Some (Settled (Returned (OPArray l)))
  ∧ service final =
      {| orderedPlotsCache := OPArray l; cacheTimestamp := T;
         isLoading := false |}
  ∧ ∀ b, tasks stored !! b = Some Waiting →
         (∃ now, TimerFires b now ∈ evs3) →
         tasks final !! b = Some (Settled (Returned (OPArray l))).
Proof.
  intros Hsingle Hload Hinvalid Hbody Hevs1 Hevs2 Hevs3 a stored final.
  unfold singleFlight in Hsingle. rewrite Hload in Hsingle.
  (* the first call starts the fetch *)
  set (s1 := step (Call t0) sys).
  assert (requests s1 = S (requests sys)
          ∧ isLoading (service s1) = true
          ∧ tasks s1 !! a = Some Fetching
          ∧ onlyInFlight a s1) as (Hr1 & Hl1 & Ha1 & Ho1).
  { subst s1. simpl. unfold callStep. rewrite Hinvalid, Hload. simpl.
    split_and!; [done..| |].
    - rewrite lookup_app_r by done. by rewrite Nat.sub_diag.
    - intros i t [Hi|[Hle Hi]]%lookup_app_Some Ht.
      + specialize (Hsingle _ _ Hi). congruence.
      + apply list_lookup_singleton_Some in Hi as [Hi _]. subst a. lia. }
  (* while the fetch is pending *)
  set (s2 := run evs1 s1).
  destruct (run_while_in_flight evs1 s1 a Fetching)
    as (Hr2 & Hl2 & Ha2 & Ho2); [done..|]. fold s2 in Hr2, Hl2, Ha2, Ho2.
  (* the response arrives *)
  set (s3 := step (FetchSettles a (FetchResponse true code)) s2).
  assert (requests s3 = requests s2
          ∧ isLoading (service s3) = true
          ∧ tasks s3 !! a = Some ReadingBody
          ∧ onlyInFlight a s3) as (Hr3 & Hl3 & Ha3 & Ho3).
  { subst s3. simpl. rewrite Ha2. simpl. split_and!; [done..| |].
    - by eapply lookup_insert_task_same.
    - intros i t. unfold applyStep. simpl.
      rewrite lookup_insert_task by done.
      case_decide; [done|]. apply Ho2. }
  (* while the body is being read *)
  set (s4 := run evs2 s3).
  destruct (run_while_in_flight evs2 s3 a ReadingBody)
    as (Hr4 & Hl4 & Ha4 & Ho4); [done..|]. fold s4 in Hr4, Hl4, Ha4, Ho4.
  (* the body arrives and is stored *)
  assert (stored = step (BodySettles a body T) s4) as Hstored.
  { subst stored s4 s3 s2 s1. simpl.
    rewrite run_app. simpl. by rewrite run_app. }
  assert (requests stored = requests s4
          ∧ service stored =
              {| orderedPlotsCache := OPArray l; cacheTimestamp := T;
                 isLoading := false |}
          ∧ tasks stored !! a = Some (Settled (Returned (OPArray l)))
          ∧ noneInFlight stored) as (Hr5 & Hs5 & Ha5 & Hn5).
  { rewrite Hstored. simpl. rewrite Ha4. unfold bodyStep. rewrite Hbody.
    simpl. split_and!; [done..| |].
    - by eapply lookup_insert_task_same.
    - intros i t. simpl. rewrite lookup_insert_task by done.
      case_decide; [by intros [= <-]|].
      intros Hi. destruct (inFlight t) eqn:Ht; [|done].
      by specialize (Ho4 _ _ Hi Ht). }
  (* within the validity window *)
  destruct (run_in_window evs3 stored l T) as (Hs6 & Hr6 & _ & Ht6);
    [done..|].
  fold final in Hs6, Hr6, Ht6.
  split_and!.
  - congruence.
  - congruence.
  - by rewrite (Ht6 _ _ Ha5).
  - congruence.
  - intros b Hb Hfires. rewrite (Ht6 _ _ Hb).
    by rewrite existsb_firesFor.
Qed.

(** The flag and the tasks agree in every state the system reaches: at
    most one call is in flight at any time. *)
Lemma step_singleFlight (e : Event) (sys : System) :
  singleFlight sys → singleFlight (step e sys).
Proof.
  unfold singleFlight.
  destruct (isLoading (service sys)) eqn:Hload; intros Hsys.
  - (* a task [a] is in flight *)
    destruct Hsys as (a & t & Ha & Ht & Honly).
    destruct e as [now|j now|j r|j r now|]; simpl.
    + unfold callStep. rewrite Hload.
      destruct (isCacheValid now (service sys)); simpl; rewrite Hload;
        exists a, t; (split_and!; [by apply lookup_app_l_Some|done|]);
        intros i t' [Hi|[_ Hi]]%lookup_app_Some Ht'; try (by eapply Honly);
        by apply list_lookup_singleton_Some in Hi as [_ <-].
    + destruct (tasks sys !! j) as [[| | |c]|] eqn:Hj;
        try (rewrite Hload; by exists a, t).
      unfold timerStep, applyStep, onlyInFlight. rewrite Hload. simpl.
      rewrite Hload, list_insert_id by done. by exists a, t.
    + destruct (tasks sys !! j) as [[| | |c]|] eqn:Hj;
        try (rewrite Hload; by exists a, t).
      assert (j = a) as -> by by eapply Honly.
      unfold fetchStep. destruct (afterFetch r); simpl.
      * rewrite Hload. exists a, ReadingBody.
        split_and!; [by eapply lookup_insert_task_same|done|].
        intros i t'. simpl. rewrite lookup_insert_task by done.
        case_decide; [done|]. apply Honly.
      * intros i t'. simpl. rewrite lookup_insert_task by done.
        case_decide; [by intros [= <-]|].
        intros Hi. destruct (inFlight t') eqn:Ht'; [|done].
        by specialize (Honly _ _ Hi Ht').
    + destruct (tasks sys !! j) as [[| | |c]|] eqn:Hj;
        try (rewrite Hload; by exists a, t).
      assert (j = a) as -> by by eapply Honly.
      unfold bodyStep. destruct (afterBody r); simpl;
        intros i t'; simpl; rewrite lookup_insert_task by done;
        (case_decide; [by intros [= <-]|]);
        intros Hi; (destruct (inFlight t') eqn:Ht'; [|done]);
        by specialize (Honly _ _ Hi Ht').
    + rewrite Hload. by exists a, t.
  - (* no task is in flight *)
    destruct e as [now|j now|j r|j r now|]; simpl.
    + unfold callStep. rewrite Hload.
      destruct (isCacheValid now (service sys)); simpl.
      * rewrite Hload.
        intros i t [Hi|[_ Hi]]%lookup_app_Some; [by eapply Hsys|].
        by apply list_lookup_singleton_Some in Hi as [_ <-].
      * exists (length (tasks sys)), Fetching. split_and!; [|done|].
        -- rewrite lookup_app_r by done. by rewrite Nat.sub_diag.
        -- intros i t [Hi|[Hle Hi]]%lookup_app_Some Ht.
           ++ specialize (Hsys _ _ Hi). congruence.
           ++ apply list_lookup_singleton_Some in Hi as [Hi _]. lia.
    + destruct (tasks sys !! j) as [[| | |c]|] eqn:Hj;
        try (by rewrite Hload).
      unfold timerStep. rewrite Hload.
      destruct (isCacheValid now (service sys)); simpl.
      * rewrite Hload. intros i t. simpl.
        rewrite lookup_insert_task by done.
        case_decide; [by intros [= <-]|apply Hsys].
      * exists j, Fetching.
        split_and!; [by eapply lookup_insert_task_same|done|].
        intros i t. simpl. rewrite lookup_insert_task by done.
        case_decide; [done|]. intros Hi Ht.
        specialize (Hsys _ _ Hi). congruence.
    + destruct (tasks sys !! j) as [[| | |c]|] eqn:Hj;
        try (by rewrite Hload).
      by specialize (Hsys _ _ Hj).
    + destruct (tasks sys !! j) as [[| | |c]|] eqn:Hj;
        try (by rewrite Hload).
      by specialize (Hsys _ _ Hj).
    + by rewrite Hload.
Qed.

Lemma run_singleFlight (evs : list Event) (sys : System) :
  singleFlight sys → singleFlight (run evs sys).
Proof.
  revert sys. induction evs as [|e evs IH]; intros sys Hsys; [done|].
  simpl. by apply IH, step_singleFlight.
Qed.

Lemma newSystem_singleFlight : singleFlight newSystem.
Proof. intros i t Hi. done. Qed.

End PlotManageFacts.

(** ** Concrete instances *)

Section PlotManageInstances.

Import PlotManage.

Lemma shouldShowOrderButton_spec_witness :
  shouldShowOrderButton (withoutOrder plotA) = true
  ∧ shouldShowOrderButton (withoutOrder plotB) = false.
Proof.
  split.
  - apply (proj2 (shouldShowOrderButton_spec (withoutOrder plotA)));
      reflexivity.
  - apply (proj2 (shouldShowOrderButton_spec (withoutOrder plotB)));
      reflexivity.
Defined.

Lemma enrichPlots_order_overlay_witness :
  ∃ out q,
    enrichPlotsWithOrderStatus (Returned (OPArray [Some orderA]))
      [plotA; plotB] = Returned out
    ∧ out !! 0%nat = Some q
    ∧ hasActiveOrder q = true
    ∧ status q = "taken".
Proof.
  destruct (enrichPlots_order_overlay [orderA] [plotA; plotB] 0 plotA eq_refl)
    as (out & q & Hout & _ & Hq & _ & _ & Hmatch & _).
  destruct Hmatch as (k & op & Hk & _ & _ & Hactive & _ & _ & _ & _ & Htaken & _).
  { exists orderA. split; [left|reflexivity]. }
  exists out, q. split; [exact Hout|]. split; [exact Hq|].
  split; [exact Hactive|].
  apply Htaken. destruct k as [|k]; [|destruct k; discriminate Hk].
  injection Hk as <-. reflexivity.
Defined.

Lemma getOrderedPlots_fetch_failure_witness :
  let sys :=
    {| service := {| orderedPlotsCache := OPArray [Some orderA];
                     cacheTimestamp := 1000; isLoading := true |};
       tasks := [Fetching]; requests := 1 |} in
  ∃ result,
    tasks (step (FetchSettles 0 (FetchResponse false 503)) sys) !! 0%nat
      = Some (Settled (Returned result))
    ∧ result = OPArray [Some orderA].
Proof.
  intros sys.
  destruct (getOrderedPlots_fetch_failure sys 0 (FetchResponse false 503)
              eq_refl (or_intror (ex_intro _ 503%Z eq_refl)))
    as (result & Hres & Hpos & _).
  exists result. split; [exact Hres|]. apply Hpos. reflexivity.
Defined.

Lemma concurrent_calls_share_one_fetch_witness :
  let t0 := 1700000000000%Z in
  let final :=
    run [Call t0; Call (t0 + 5);
         FetchSettles 0 (FetchResponse true 200);
         TimerFires 1 (t0 + 105);
         BodySettles 0 (JsonData (Some (OPArray [Some orderA]))) (t0 + 200);
         TimerFires 1 (t0 + 205)] newSystem in
  requests final = 1%nat
  ∧ tasks final !! 1%nat = Some (Settled (Returned (OPArray [Some orderA]))).
Proof.
  intros t0 final.
  destruct (concurrent_calls_share_one_fetch newSystem t0
              [Call (t0 + 5)] [TimerFires 1 (t0 + 105)]
              [TimerFires 1 (t0 + 205)] 200
              (JsonData (Some (OPArray [Some orderA])))
              [Some orderA] (t0 + 200))
    as (_ & Hreq & _ & _ & Hwait).
  - intros i t Hi. discriminate Hi.
  - reflexivity.
  - reflexivity.
  - reflexivity.
  - repeat constructor.
  - repeat constructor.
  - repeat constructor.
  - split; [exact Hreq|]. apply Hwait.
    + reflexivity.
    + exists (t0 + 205)%Z. left.
Defined.

End PlotManageInstances.

(* ================================================================== *)
(** * Properties of the map component *)
(* ================================================================== *)

Section MapViewFacts.

Import MapView.
#[local] Set Warnings "-inexact-float".
Local Open Scope float_scope.

(** ** Comparison of binary64 numbers *)

Lemma SFcompare_antisym (x y : spec_float) :
  SFcompare y x = CompOpp <$> SFcompare x y.
Proof.
  destruct x as [sx|sx| |sx mx ex], y as [sy|sy| |sy my ey]; simpl;
    repeat match goal with b : bool |- _ => destruct b end; try done;
    f_equal; rewrite (Z.compare_antisym ex ey);
    destruct (ex ?= ey)%Z; simpl; try done;
    by rewrite (Pos.compare_cont_antisym mx my Eq).
Qed.

Lemma SFcompare_refl (x : spec_float) :
  x ≠ S754_nan → SFcompare x x = Some Eq.
Proof.
  destruct x as [s|s| |s m e]; try done;
    try (intros _; by repeat match goal with b : bool |- _ => destruct b end).
  intros _. simpl. rewrite Z.compare_refl.
  rewrite Pos.compare_cont_refl. by destruct s.
Qed.

Lemma is_nan_Prim2SF (v : float) :
  is_nan v = true ↔ Prim2SF v = S754_nan.
Proof.
  unfold is_nan. rewrite FloatAxioms.eqb_spec. unfold SFeqb. split.
  - intros H. destruct (Prim2SF v) eqn:Ev; try done;
      by rewrite SFcompare_refl in H.
  - intros ->. done.
Qed.

Lemma is_nan_eq (v : float) : is_nan v = true → v = nan.
Proof.
  intros H%is_nan_Prim2SF. apply Prim2SF_inj. by rewrite H.
Qed.

Lemma ltb_asym (x y : float) : (x <? y) = true → (y <? x) = false.
Proof.
  rewrite !FloatAxioms.ltb_spec. unfold SFltb.
  rewrite (SFcompare_antisym (Prim2SF x)).
  by destruct (SFcompare (Prim2SF x) (Prim2SF y)) as [[]|].
Qed.

Lemma leb_not_ltb (x y : float) : (x <=? y) = true → (y <? x) = false.
Proof.
  rewrite FloatAxioms.ltb_spec, FloatAxioms.leb_spec. unfold SFltb, SFleb.
  rewrite (SFcompare_antisym (Prim2SF x)).
  by destruct (SFcompare (Prim2SF x) (Prim2SF y)) as [[]|].
Qed.

Lemma ltb_negb_leb (x y : float) :
  is_nan x = false → is_nan y = false → (x <? y) = negb (y <=? x).
Proof.
  intros Hx Hy.
  rewrite FloatAxioms.ltb_spec, FloatAxioms.leb_spec. unfold SFltb, SFleb.
  rewrite (SFcompare_antisym (Prim2SF x)).
  destruct (Prim2SF x) as [sx|sx| |sx mx ex] eqn:Ex;
    [| |by apply is_nan_Prim2SF in Ex; congruence|];
  (destruct (Prim2SF y) as [sy|sy| |sy my ey] eqn:Ey;
    [| |by apply is_nan_Prim2SF in Ey; congruence|]);
  by destruct (SFcompare _ _) as [[]|] eqn:Hc.
Qed.

Lemma is_finite_not_nan (v : float) : is_finite v = true → is_nan v = false.
Proof. unfold is_finite. by destruct (is_nan v). Qed.

(** [Math.max(lo, Math.min(hi, v))] is clamping, for bounds on either side
    of zero and every [v], [NaN] included. *)
Lemma Math_max_min_clamp (lo hi v : float) :
  negativeFinite lo = true → positiveFinite hi = true →
  get_sign lo = true → get_sign hi = false →
  Math_max lo (Math_min hi v) = clamp lo hi v.
Proof.
  unfold negativeFinite, positiveFinite. intros Hlo Hhi Hslo Hshi.
  destruct (Prim2SF lo) as [| | |[] ml el] eqn:Elo; try done.
  destruct (Prim2SF hi) as [| | |[] mh eh] eqn:Ehi; try done.
  assert (is_nan lo = false) as Hnlo.
  { destruct (is_nan lo) eqn:H; [|done].
    apply is_nan_Prim2SF in H. congruence. }
  assert (is_nan hi = false) as Hnhi.
  { destruct (is_nan hi) eqn:H; [|done].
    apply is_nan_Prim2SF in H. congruence. }
  assert ((lo <? hi) = true) as Hlohi.
  { by rewrite FloatAxioms.ltb_spec, Elo, Ehi. }
  assert ((hi <? v) = true → (v <? lo) = false) as Hhv.
  { rewrite !FloatAxioms.ltb_spec, Elo, Ehi.
    by destruct (Prim2SF v) as [[]|[]| |[] m e]. }
  unfold Math_max, Math_min, clamp. rewrite Hnlo, Hnhi. simpl.
  destruct (is_nan v) eqn:Hnv.
  - apply is_nan_eq in Hnv. subst v. simpl.
    assert ((nan <? lo) = false) as -> by by rewrite FloatAxioms.ltb_spec.
    assert ((hi <? nan) = false) as ->
      by by rewrite FloatAxioms.ltb_spec, Ehi.
    done.
  - rewrite Hshi.
    destruct (hi <? v) eqn:H1.
    + rewrite Hnhi, Hlohi. simpl. by rewrite (Hhv eq_refl).
    + assert ((if v <? hi then v else v) = v) as -> by by destruct (v <? hi).
      rewrite Hnv, Hslo. destruct (lo <? v) eqn:H2.
      * by rewrite (ltb_asym _ _ H2).
      * by destruct (v <? lo).
Qed.

Lemma normalizeCoordinate_clamps (coord : Point) :
  normalizeCoordinate coord = clampedPoint coord.
Proof.
  unfold normalizeCoordinate, clampedPoint.
  by rewrite !Math_max_min_clamp.
Qed.

(** ** Validation *)

Lemma isValidCoordinate_spec (coord : Point) :
  isValidCoordinate coord = true ↔ coordinateCheck coord.
Proof.
  unfold coordinateCheck. split.
  - destruct coord as [[|[lng|] [|[lat|] others]]|]; simpl; try done.
    destruct (is_finite lng) eqn:Hflng; [|done].
    destruct (is_finite lat) eqn:Hflat; [|done]. simpl.
    pose proof (is_finite_not_nan _ Hflng) as Hnlng.
    pose proof (is_finite_not_nan _ Hflat) as Hnlat.
    rewrite Hnlng, Hnlat. simpl.
    rewrite !ltb_negb_leb by done.
    destruct (-180.1 <=? lng) eqn:H1; [|done].
    destruct (lng <=? 180.1) eqn:H2; [|done].
    destruct (-90.1 <=? lat) eqn:H3; [|done].
    destruct (lat <=? 90.1) eqn:H4; [|done].
    intros _. by exists lng, lat, others.
  - intros (lng & lat & others & -> & Hflng & Hflat & H1 & H2 & H3 & H4).
    simpl. rewrite Hflng, Hflat. simpl.
    rewrite (is_finite_not_nan _ Hflng), (is_finite_not_nan _ Hflat). simpl.
    by rewrite (leb_not_ltb _ _ H1), (leb_not_ltb _ _ H2),
      (leb_not_ltb _ _ H3), (leb_not_ltb _ _ H4).
Qed.

Lemma normalizeLoop_spec (ring : list Point) :
  (fst (normalizeLoop ring) = true ↔ Forall coordinateCheck ring)
  ∧ (fst (normalizeLoop ring) = true →
     snd (normalizeLoop ring) = normalizeCoordinate <$> ring).
Proof.
  induction ring as [|coord ring [IH1 IH2]]; simpl.
  - split; [|done]. split; [by constructor|done].
  - destruct (isValidCoordinate coord) eqn:Hc.
    + destruct (normalizeLoop ring) as [ok ring'] eqn:Hloop. simpl in *.
      split.
      * rewrite Forall_cons, <- isValidCoordinate_spec. tauto.
      * intros Hok. by rewrite IH2.
    + simpl. split; [|done]. split; [done|].
      intros [Hcoord%isValidCoordinate_spec _]%Forall_cons. congruence.
Qed.

Lemma checkRing_spec (ring : list Point) :
  (fst (checkRing ring) = true ↔ ringAccepted ring)
  ∧ (fst (checkRing ring) = true →
     snd (checkRing ring) = closeRing (normalizeCoordinate <$> ring)).
Proof.
  unfold checkRing, ringAccepted.
  destruct (normalizeLoop_spec ring) as [H1 H2].
  destruct (Nat.ltb_spec (length ring) 4) as [Hlt|Hge]; simpl.
  - split; [|done]. split; [done|]. intros [? _]. lia.
  - destruct (normalizeLoop ring) as [[] ring'] eqn:Hloop; simpl in *.
    + split; [|by rewrite H2]. split; [|done]. intros _. split; [done|].
      by apply H1.
    + split; [|done]. split; [done|]. intros [_ HF]. by apply H1 in HF.
Qed.

Lemma everyRing_spec (rings : list (list Point)) :
  (fst (everyRing rings) = true ↔ Forall ringAccepted rings)
  ∧ (fst (everyRing rings) = true →
     snd (everyRing rings)
       = (λ ring, closeRing (normalizeCoordinate <$> ring)) <$> rings).
Proof.
  induction rings as [|ring rings [IH1 IH2]]; simpl.
  - split; [|done]. split; [by constructor|done].
  - destruct (checkRing_spec ring) as [H1 H2].
    destruct (checkRing ring) as [[] ring'] eqn:Hring; simpl in *.
    + destruct (everyRing rings) as [ok rings'] eqn:Hrings. simpl in *.
      split.
      * rewrite Forall_cons. tauto.
      * intros Hok. by rewrite IH2, H2.
    + split; [|done]. split; [done|].
      intros [Hr%H1 _]%Forall_cons. done.
Qed.

Lemma everyPolygon_spec (polygons : list (list (list Point))) :
  (fst (everyPolygon polygons) = true ↔
     Forall (λ p, p ≠ []) polygons ∧ Forall (Forall ringAccepted) polygons)
  ∧ (fst (everyPolygon polygons) = true →
     snd (everyPolygon polygons)
       = fmap (M:=list) (λ ring, closeRing (normalizeCoordinate <$> ring))
           <$> polygons).
Proof.
  induction polygons as [|polygon polygons [IH1 IH2]]; simpl.
  - split; [|done]. split; [by split; constructor|done].
  - assert ((fst (checkPolygon polygon) = true ↔
               polygon ≠ [] ∧ Forall ringAccepted polygon)
            ∧ (fst (checkPolygon polygon) = true →
               snd (checkPolygon polygon)
                 = (λ ring, closeRing (normalizeCoordinate <$> ring))
                     <$> polygon)) as [H1 H2].
    { destruct polygon as [|ring polygon]; [by split; [split; [|intros []]|]|].
      unfold checkPolygon. destruct (everyRing_spec (ring :: polygon)) as [Hr ?].
      split; [|done]. rewrite Hr. split; [done|tauto]. }
    destruct (checkPolygon polygon) as [[] polygon'] eqn:Hpolygon; simpl in *.
    + destruct (everyPolygon polygons) as [ok polygons'] eqn:Hpolygons.
      simpl in *. split.
      * rewrite !Forall_cons. tauto.
      * intros Hok. by rewrite IH2, H2.
    + split; [|done]. split; [done|].
      rewrite !Forall_cons. intros [[? _] [? _]].
      assert (false = true) by by apply H1. done.
Qed.

(** C6 (amended).  [isValidGeometry] returns true for a Polygon or a
    MultiPolygon exactly when the geometry has rings at all (a Polygon
    has a ring; a MultiPolygon has a polygon, and each polygon a ring),
    every ring has at least four points, and every point passes the
    coordinate check: an array whose first two elements are finite
    numbers, the first within [-180.1, 180.1], the second within
    [-90.1, 90.1]. *)
Theorem isValidGeometry_iff (geometry : Geometry) :
  fst (isValidGeometry geometry) = true
  ↔ hasRings geometry ∧ everyRingAccepted geometry.
Proof.
  destruct geometry as [rings|polygons|]; simpl.
  - destruct rings as [|ring rings]; [by split; [|intros [? _]]|].
    destruct (everyRing_spec (ring :: rings)) as [H _].
    destruct (everyRing (ring :: rings)) as [ok rings']. simpl in *.
    rewrite H. by split; [|intros [_ ?]].
  - destruct polygons as [|polygon polygons]; [by split; [|intros [[? _] _]]|].
    destruct (everyPolygon_spec (polygon :: polygons)) as [H _].
    destruct (everyPolygon (polygon :: polygons)) as [ok polygons'].
    simpl in *. rewrite H. by split; [intros [? ?]|intros [[_ ?] ?]].
  - by split; [|intros [[] _]].
Qed.

(** C6 as stated fails: a Polygon without rings has, vacuously, only rings
    of four points or more whose points all pass the check, and it is
    rejected. *)
Lemma isValidGeometry_rejects_empty_polygon :
  ¬ (fst (isValidGeometry (Polygon [])) = true
     ↔ everyRingAccepted (Polygon [])).
Proof. intros [_ H]. by discriminate H; constructor. Qed.

(** ** In-place normalisation *)

Lemma closeRing_unfold (ring : list Point) (first final : Point) :
  head ring = Some first → last ring = Some final →
  closeRing ring =
    if farApart first final
    then <[(length ring - 1)%nat :=
             PArray [JNum (component 0 first); JNum (component 1 first)]]> ring
    else ring.
Proof. intros H1 H2. unfold closeRing. by rewrite H1, H2. Qed.

Lemma closeRing_clamped (ring : list Point) :
  closeRing (clampedPoint <$> ring) = overwrittenRing ring.
Proof.
  destruct ring as [|p0 ring'] eqn:Hring; [done|]. rewrite <- Hring.
  assert (head ring = Some p0) as Hhead by by subst.
  assert (∃ pn, last ring = Some pn) as [pn Hlast].
  { destruct (last ring) eqn:E; [by eexists|].
    apply last_None in E. congruence. }
  rewrite (closeRing_unfold _ (clampedPoint p0) (clampedPoint pn));
    [|by subst|by rewrite fmap_last, Hlast].
  change (PArray [JNum (component 0 (clampedPoint p0));
                  JNum (component 1 (clampedPoint p0))])
    with (clampedPoint p0).
  rewrite length_fmap. unfold overwrittenRing.
  apply list_eq. intros i. rewrite list_lookup_imap.
  unfold overwrittenPoint. rewrite Hhead, Hlast.
  change (default PNonArray (Some p0)) with p0.
  change (default PNonArray (Some pn)) with pn.
  destruct (farApart (clampedPoint p0) (clampedPoint pn)).
  - destruct (decide (i = length ring - 1)%nat) as [->|Hne].
    + assert (length ring - 1 < length ring)%nat as Hlt by (subst; simpl; lia).
      rewrite list_lookup_insert_eq by by rewrite length_fmap.
      destruct (lookup_lt_is_Some_2 ring _ Hlt) as [p ->]. simpl.
      by rewrite bool_decide_eq_true_2.
    + rewrite list_lookup_insert_ne by done. rewrite list_lookup_fmap.
      destruct (ring !! i); [|done]. simpl.
      by rewrite bool_decide_eq_false_2.
  - rewrite list_lookup_fmap. destruct (ring !! i); [|done]. simpl.
    by rewrite andb_false_r.
Qed.

Lemma closeRing_normalized (ring : list Point) :
  closeRing (normalizeCoordinate <$> ring) = overwrittenRing ring.
Proof.
  rewrite <- closeRing_clamped. f_equal.
  apply list_fmap_ext. intros i p _. apply normalizeCoordinate_clamps.
Qed.

(** Point by point: every point of an overwritten ring is the clamped
    original, except the last one when the clamped end points are far
    apart, which is the clamped first point. *)
Lemma overwrittenRing_lookup (ring : list Point) (i : nat) (coord : Point) :
  ring !! i = Some coord →
  overwrittenRing ring !! i = Some (overwrittenPoint ring i coord).
Proof.
  intros Hi. unfold overwrittenRing. by rewrite list_lookup_imap, Hi.
Qed.

(** C10.  When [isValidGeometry] returns true for a Polygon or a
    MultiPolygon, the geometry object itself has been rewritten: it has
    the same shape, every point of every ring has been replaced by a
    two-element point holding its longitude clamped to [-180, 180] and its
    latitude clamped to [-90, 90], and in every ring whose (clamped) first
    and last points differ by more than 1e-10 in either axis the last
    point has been replaced by a copy of the first. *)
Theorem isValidGeometry_overwrites (geometry : Geometry) :
  fst (isValidGeometry geometry) = true →
  snd (isValidGeometry geometry) = mapRings overwrittenRing geometry.
Proof.
  destruct geometry as [rings|polygons|]; simpl; [| |done].
  - destruct rings as [|ring rings]; [done|].
    destruct (everyRing_spec (ring :: rings)) as [_ H].
    destruct (everyRing (ring :: rings)) as [ok rings']. simpl in *.
    intros Hok. rewrite (H Hok). f_equal. f_equal.
    + apply closeRing_normalized.
    + apply list_fmap_ext. intros i r _. apply closeRing_normalized.
  - destruct polygons as [|polygon polygons]; [done|].
    destruct (everyPolygon_spec (polygon :: polygons)) as [_ H].
    destruct (everyPolygon (polygon :: polygons)) as [ok polygons'].
    simpl in *. intros Hok. rewrite (H Hok). f_equal.
    assert (∀ rings : list (list Point),
              (λ ring, closeRing (normalizeCoordinate <$> ring)) <$> rings
              = overwrittenRing <$> rings) as Hrings.
    { intros rings. apply list_fmap_ext. intros i r _.
      apply closeRing_normalized. }
    f_equal; [apply Hrings|].
    apply list_fmap_ext. intros i rings _. apply Hrings.
Qed.

(** ** Centroid *)

Lemma centroidLoop_sums (ring : list (list float)) (area x y : float) :
  centroidLoop ring area x y =
    (fold_left (λ acc e, acc + crossTerm e.1 e.2) (zip ring (tail ring)) area,
     fold_left (λ acc e, acc + (coordinateAt 0 e.1 + coordinateAt 0 e.2)
                               * crossTerm e.1 e.2)
       (zip ring (tail ring)) x,
     fold_left (λ acc e, acc + (coordinateAt 1 e.1 + coordinateAt 1 e.2)
                               * crossTerm e.1 e.2)
       (zip ring (tail ring)) y).
Proof.
  revert area x y. induction ring as [|p0 ring IH]; intros area x y; [done|].
  destruct ring as [|p1 ring]; [done|].
  change (centroidLoop (p0 :: p1 :: ring) area x y)
    with (centroidLoop (p1 :: ring) (area + crossTerm p0 p1)
            (x + (coordinateAt 0 p0 + coordinateAt 0 p1) * crossTerm p0 p1)
            (y + (coordinateAt 1 p0 + coordinateAt 1 p1) * crossTerm p0 p1)).
  by rewrite IH.
Qed.

(** C7 (amended).  For a ring of at least four points whose shoelace sum
    has magnitude at least 1e-10, [getPolygonCentroid] returns the
    signed-area centroid with its first coordinate clamped to [-180, 180]
    and its second to [-90, 90]. *)
Theorem getPolygonCentroid_clamped_centroid
    (ring : list (list float)) (others : list (list (list float))) :
  (4 ≤ length ring)%nat →
  (1e-10 <=? abs (shoelaceSum ring)) = true →
  getPolygonCentroid (ring :: others)
    = (clamp (-180) 180 (fst (signedAreaCentroid ring)),
       clamp (-90) 90 (snd (signedAreaCentroid ring))).
Proof.
  intros Hlen Harea. unfold getPolygonCentroid. simpl.
  destruct (Nat.ltb_spec (length ring) 4) as [?|_]; [lia|].
  rewrite centroidLoop_sums.
  fold (sumOverEdges crossTerm ring). fold (shoelaceSum ring).
  rewrite (leb_not_ltb _ _ Harea).
  by rewrite !Math_max_min_clamp.
Qed.

(** The two sample rings used below pass validation, which leaves them as
    they are: [getPolygonCentroid] receives them in the label placement. *)
Lemma sample_rings_are_valid :
  isValidGeometry (Polygon [asRing bowtieRing])
    = (true, Polygon [asRing bowtieRing])
  ∧ isValidGeometry (Polygon [asRing collinearRing])
    = (true, Polygon [asRing collinearRing]).
Proof. split; vm_compute; reflexivity. Qed.

(** C7 as stated fails: [bowtieRing] has four points or more and a shoelace
    sum of magnitude 2; its signed-area centroid has longitude 201, and
    [getPolygonCentroid] returns longitude 180. *)
Lemma getPolygonCentroid_not_the_centroid :
  ¬ (∀ ring : list (list float),
       (4 ≤ length ring)%nat →
       (1e-10 <=? abs (shoelaceSum ring)) = true →
       getPolygonCentroid [ring] = signedAreaCentroid ring).
Proof.
  intros H.
  specialize (H bowtieRing ltac:(simpl; lia) ltac:(vm_compute; reflexivity)).
  apply (f_equal (λ c, fst c =? 180)) in H. vm_compute in H. discriminate H.
Qed.

(** C8 fails on the code.  For [collinearRing] the shoelace sum is 0, so
    the fallback branch runs.  It returns (235, 115): the sums over all
    four entries divided by three.  That is neither the arithmetic mean of
    the four entries, (176.25, 86.25), nor within the geographic bounds. *)
Lemma getPolygonCentroid_fallback_example :
  (abs (shoelaceSum collinearRing) <? 1e-10) = true
  ∧ getPolygonCentroid [collinearRing] = (235, 115)
  ∧ arithmeticMean collinearRing = (176.25, 86.25)
  ∧ (180 <? fst (getPolygonCentroid [collinearRing])) = true
  ∧ (90 <? snd (getPolygonCentroid [collinearRing])) = true.
Proof. split_and!; vm_compute; reflexivity. Qed.

End MapViewFacts.

(** ** Order submission *)

Section OrderSubmissionFacts.

Import PlotManage MapView.
Context {Rest : Type}.
Implicit Types (st : ViewState Rest).

(** C3.  With a plot selected, [handleOrderSubmit] takes the current plot
    list as its snapshot before the optimistic update.  Whatever the
    state is when [createOrder] settles: on failure the plot list is set
    back to exactly that snapshot, an error message is set, and the
    management service (its cache included), the dialog flag and the
    selection are left as they are; on success the cache is invalidated
    and the dialog is closed, the plot list being left as it is. *)
Theorem handleOrderSubmit_failure_reverts st
    (selected : PlotWithOrderStatus Rest) (orderData : OrderData)
    (nowIso : string) :
  selectedPlot st = Some selected →
  ∃ optimistic,
    submitStart orderData nowIso st = (optimistic, Some (plots st))
    ∧ orderError optimistic = None
    ∧ managementService optimistic = managementService st
    ∧ isModalOpen optimistic = isModalOpen st
    ∧ (∀ (err : ThrownValue) (settling : ViewState Rest),
         let final := submitFinish (plots st) (OrderFailed err) settling in
         plots final = plots st
         ∧ orderError final
             = Some ("Failed to submit order: " ++ errorMessage err)
         ∧ managementService final = managementService settling
         ∧ isModalOpen final = isModalOpen settling
         ∧ selectedPlot final = selectedPlot settling)
    ∧ (∀ settling : ViewState Rest,
         let final := submitFinish (plots st) OrderCreated settling in
         managementService final
           = invalidateCache (managementService settling)
         ∧ isModalOpen final = false
         ∧ selectedPlot final = None
         ∧ plots final = plots settling).
Proof.
  intros Hsel. unfold submitStart. rewrite Hsel.
  eexists. split; [reflexivity|]. by split_and!.
Qed.

(** Without a selected plot the callback only reports that: neither the
    plot list, nor the cache, nor the dialog is touched. *)
Lemma handleOrderSubmit_without_selection st (orderData : OrderData)
    (nowIso : string) (result : CreateOrderResult) :
  selectedPlot st = None →
  handleOrderSubmit orderData nowIso result st
    = setOrderError (Some "No plot selected.") st.
Proof. intros Hsel. unfold handleOrderSubmit, submitStart. by rewrite Hsel. Qed.

(** The uninterrupted callback: the cache is invalidated, or the dialog
    closed, only when the order was created. *)
Lemma handleOrderSubmit_only_on_success st (orderData : OrderData)
    (nowIso : string) (result : CreateOrderResult) :
  result ≠ OrderCreated →
  let final := handleOrderSubmit orderData nowIso result st in
  managementService final = managementService st
  ∧ isModalOpen final = isModalOpen st.
Proof.
  intros Hres. unfold handleOrderSubmit, submitStart.
  destruct (selectedPlot st); [|done]. by destruct result.
Qed.

End OrderSubmissionFacts.

(** ** Concrete instances *)

Section MapViewInstances.

Import PlotManage MapView.
#[local] Set Warnings "-inexact-float".
Local Open Scope float_scope.

Lemma isValidGeometry_overwrites_witness :
  snd (isValidGeometry (Polygon [openRing]))
    = Polygon [[PArray [JNum 180; JNum 0]; PArray [JNum 0; JNum 2];
                PArray [JNum 1; JNum 0]; PArray [JNum 180; JNum 0]]].
Proof.
  rewrite (isValidGeometry_overwrites (Polygon [openRing]));
    vm_compute; reflexivity.
Defined.

Lemma getPolygonCentroid_clamped_centroid_witness :
  getPolygonCentroid [squareRing] = (1, 1)
  ∧ signedAreaCentroid squareRing = (1, 1).
Proof.
  split; [|vm_compute; reflexivity].
  rewrite (getPolygonCentroid_clamped_centroid squareRing []).
  - vm_compute. reflexivity.
  - simpl. lia.
  - vm_compute. reflexivity.
Defined.

Lemma handleOrderSubmit_failure_reverts_witness :
  let p : PlotWithOrderStatus unit :=
    withoutOrder {| id := "P-1"; status := "available"; rest := () |} in
  let st :=
    {| plots := [p]; selectedPlot := Some p; orderError := None;
       isModalOpen := true; managementService := newService |} in
  let final :=
    handleOrderSubmit {| first_name := "Asha"; last_name := "Mrema" |}
      "2025-01-01T00:00:00.000Z" (OrderFailed (ErrorObject "HTTP 500")) st in
  plots final = [p]
  ∧ orderError final = Some "Failed to submit order: HTTP 500"
  ∧ managementService final = newService
  ∧ isModalOpen final = true.
Proof.
  intros p st final.
  destruct (handleOrderSubmit_failure_reverts st p
              {| first_name := "Asha"; last_name := "Mrema" |}
              "2025-01-01T00:00:00.000Z" eq_refl)
    as (optimistic & Hstart & _ & Hsvc & Hmodal & Hfail & _).
  subst final. unfold handleOrderSubmit. rewrite Hstart.
  destruct (Hfail (ErrorObject "HTTP 500") optimistic) as (H1 & H2 & H3 & H4 & _).
  split; [exact H1|]. split; [exact H2|].
  split; [by rewrite H3, Hsvc|by rewrite H4, Hmodal].
Defined.

End MapViewInstances.

(* ================================================================== *)
(** * Further properties of the plot management service *)
(* ================================================================== *)

Section PlotManageMore.

Import PlotManage MapView.
Context {Rest : Type}.
Implicit Types (p : Plot Rest) (q : PlotWithOrderStatus Rest).

(** ** The cache under arbitrary schedules *)

(** X1.  In every state a fresh service can reach, whatever calls are
    made and however timers, responses and invalidations interleave, at
    most one call of [getOrderedPlots] is between [this.isLoading = true]
    and its [finally] block, and [isLoading] is true exactly when there is
    one. *)
Theorem getOrderedPlots_single_flight (evs : list Event) :
  let sys := run evs newSystem in
  (∀ i j ti tj,
     tasks sys !! i = Some ti → tasks sys !! j = Some tj →
     inFlight ti = true → inFlight tj = true → i = j)
  ∧ (isLoading (service sys) = true
     ↔ ∃ i t, tasks sys !! i = Some t ∧ inFlight t = true).
Proof.
  intros sys.
  pose proof (run_singleFlight evs newSystem newSystem_singleFlight) as H.
  fold sys in H. unfold singleFlight in H.
  destruct (isLoading (service sys)).
  - destruct H as (a & t & Ha & Ht & Honly). split.
    + intros i j ti tj Hi Hj Hti Htj.
      rewrite (Honly _ _ Hi Hti). symmetry. by eapply Honly.
    + split; [by exists a, t|done].
  - split.
    + intros i j ti tj Hi _ Hti _. specialize (H _ _ Hi). congruence.
    + split; [done|]. intros (i & t & Hi & Ht).
      specialize (H _ _ Hi). congruence.
Qed.

(** X2.  A response that is on its way is stored whatever happens before
    it arrives, [invalidateCache] included: once the body of the call in
    flight settles with an array, that array is the cache, stamped with
    the time of arrival, and calls made within 30 seconds of it are
    answered from it without a request. *)
Theorem in_flight_response_is_stored (sys : System) (a : nat)
    (evs : list Event) (body : JsonResult)
    (l : list (option OrderedPlot)) (T : Z) :
  isLoading (service sys) = true →
  tasks sys !! a = Some ReadingBody →
  onlyInFlight a sys →
  Forall (notSettling a) evs →
  afterBody body = Returned (OPArray l) →
  let sys' := run (evs ++ [BodySettles a body T]) sys in
  service sys' =
    {| orderedPlotsCache := OPArray l; cacheTimestamp := T;
       isLoading := false |}
  ∧ ∀ now, (now - T < cacheExpirationMs)%Z →
      callStep now (service sys') =
        {| serviceAfter := service sys';
           taskAfter := Settled (Returned (OPArray l));
           issuedRequest := false |}.
Proof.
  intros Hload Ha Honly Hevs Hbody sys'.
  destruct (run_while_in_flight evs sys a ReadingBody)
    as (_ & _ & Ha' & _); [done..|].
  assert (service sys' =
    {| orderedPlotsCache := OPArray l; cacheTimestamp := T;
       isLoading := false |}) as Hsvc.
  { subst sys'. rewrite run_app. simpl. rewrite Ha'.
    unfold bodyStep. by rewrite Hbody. }
  split; [done|]. intros now Hnow. unfold callStep, isCacheValid.
  rewrite Hsvc. simpl. by rewrite bool_decide_eq_true_2.
Qed.

(** X3.  After a successful order submission the next call of
    [getOrderedPlots] does not answer from the cache: with the clock at
    least 30 seconds past the epoch and no fetch in flight it issues a
    request. *)
Theorem order_success_forces_refetch
    (originalPlots : list (PlotWithOrderStatus Rest))
    (settling : ViewState Rest) (now : Z) :
  isLoading (managementService settling) = false →
  (cacheExpirationMs ≤ now)%Z →
  let final := submitFinish originalPlots OrderCreated settling in
  callStep now (managementService final)
    = beginFetch (managementService final)
  ∧ issuedRequest (callStep now (managementService final)) = true.
Proof.
  intros Hload Hnow final.
  assert (callStep now (managementService final)
          = beginFetch (managementService final)) as ->; [|done].
  subst final. simpl. unfold callStep, isCacheValid. simpl.
  rewrite bool_decide_eq_false_2 by (unfold cacheExpirationMs in *; lia).
  simpl. by rewrite Hload.
Qed.

(** ** [isPlotOrdered] *)

(** X4.  [isPlotOrdered] never throws, and it answers true only for an ok
    response whose body carries [has_active_order = true]: a 404, any
    other HTTP error, a network failure and an unreadable body all give
    false. *)
Theorem isPlotOrdered_spec (r : FetchResult) (body : OrderStatusBody) :
  ∃ b, isPlotOrdered r body = Returned b
       ∧ (b = true ↔ (∃ code, r = FetchResponse true code)
                     ∧ body = StatusBodyData (Some true)).
Proof.
  unfold isPlotOrdered, isPlotOrdered_try.
  destruct r as [e|[] code].
  - exists false. split; [done|]. split; [done|]. by intros [[? ?] _].
  - destruct body as [e| |[[|]|]]; eexists; (split; [done|]);
      (split; [try done|try by intros [_ ?]]).
    intros _. split; [by exists code|done].
  - exists false. split; [by case_decide|].
    split; [done|]. by intros [[? ?] _].
Qed.

(** ** Enrichment and the order button *)

Lemma orderedPlotsMap_from_lookup (l : list (option OrderedPlot)) :
  ∀ (m m' : gmap string OrderedPlot) k op,
    orderedPlotsMap_from m l = Returned m' → m' !! k = Some op →
    m !! k = Some op ∨ Some op ∈ l.
Proof.
  induction l as [|[op0|] l IH]; intros m m' k op; simpl.
  - intros [= <-]. by left.
  - intros Hm Hk. destruct (IH _ _ _ _ Hm Hk) as [Hin|Hin].
    + destruct (decide (plot_id op0 = k)) as [<-|Hne].
      * rewrite lookup_insert_eq in Hin. injection Hin as <-. right. left.
      * rewrite lookup_insert_ne in Hin by done. by left.
    + right. by right.
  - done.
Qed.

(** X5.  On every record [enrichPlotsWithOrderStatus] returns, whatever
    [getOrderedPlots] settled with, the order button is shown exactly when
    the displayed status is "available", provided the order statuses
    received are within the declared union. *)
Theorem enriched_button_iff_available
    (fetched : Completion OrderedPlotsValue) (plots : list (Plot Rest))
    (out : list (PlotWithOrderStatus Rest)) q :
  (∀ l op, fetched = Returned (OPArray l) → Some op ∈ l →
           declaredStatus (order_status op)) →
  enrichPlotsWithOrderStatus fetched plots = Returned out →
  q ∈ out →
  shouldShowOrderButton q = true ↔ status q = "available".
Proof.
  intros Hdecl Hout Hq.
  assert (∀ p, shouldShowOrderButton (withoutOrder p) = true
               ↔ status (withoutOrder p) = "available") as Hplain.
  { intros p. unfold shouldShowOrderButton. simpl.
    apply bool_decide_eq_true. }
  unfold enrichPlotsWithOrderStatus, enrichPlots_try in Hout.
  destruct fetched as [[l|b]|e];
    try (injection Hout as <-;
         apply list_elem_of_fmap in Hq as (p & -> & _); apply Hplain).
  destruct (orderedPlotsMap l) as [m|e] eqn:Hm;
    [|injection Hout as <-;
      apply list_elem_of_fmap in Hq as (p & -> & _); apply Hplain].
  injection Hout as <-. apply list_elem_of_fmap in Hq as (p & -> & _).
  unfold enrichPlot. destruct (m !! id p) as [op|] eqn:Hop; [|apply Hplain].
  destruct (orderedPlotsMap_from_lookup _ _ _ _ _ Hm Hop) as [H|Hin];
    [by rewrite lookup_empty in H|].
  unfold shouldShowOrderButton. simpl. rewrite bool_decide_eq_true.
  destruct (Hdecl l op eq_refl Hin) as [-> | [-> | ->]]; by split.
Qed.

(** X6.  Whenever the order button is shown, its text is "Reorder Plot"
    for a plot with an active (rejected) order and "Order This Plot"
    otherwise; none of the texts "Order Pending", "Plot Taken" and "Not
    Available" ever stands on a shown button. *)
Theorem button_text_when_shown q :
  shouldShowOrderButton q = true →
  getOrderButtonText q
    = if hasActiveOrder q then "Reorder Plot" else "Order This Plot".
Proof.
  unfold shouldShowOrderButton, getOrderButtonText.
  destruct (hasActiveOrder q).
  - intros ->%bool_decide_eq_true. done.
  - intros ->%bool_decide_eq_true. done.
Qed.

(** X7.  A caller cannot tell a failed enrichment from the absence of
    orders: with an empty array of orders the result is the one the
    [catch] block produces. *)
Theorem enrichment_without_orders_is_fallback (plots : list (Plot Rest))
    (e : string) :
  enrichPlotsWithOrderStatus (Returned (OPArray [])) plots
    = enrichPlotsWithOrderStatus (Thrown e) plots
  ∧ enrichPlotsWithOrderStatus (Returned (OPArray [])) plots
    = Returned (withoutOrder <$> plots).
Proof.
  assert (enrichPlotsWithOrderStatus (Returned (OPArray [])) plots
          = Returned (withoutOrder <$> plots)) as H; [|by rewrite H].
  unfold enrichPlotsWithOrderStatus, enrichPlots_try. simpl. f_equal.
Qed.

(** X8.  [getOrderSummary] gives a text exactly for a plot with an active
    order whose status is one of the three declared ones, and that text is
    never empty, so the truthiness test of the popup loses nothing. *)
Theorem getOrderSummary_spec (toLocaleDateString : string → string) q :
  (is_Some (getOrderSummary toLocaleDateString q)
   ↔ hasActiveOrder q = true
     ∧ ∃ s, orderStatus q = Some s ∧ declaredStatus s)
  ∧ getOrderSummary toLocaleDateString q ≠ Some "".
Proof.
  unfold getOrderSummary, declaredStatus.
  destruct (hasActiveOrder q); simpl.
  2: { split; [|done]. split; [by intros [? ?]|by intros [? _]]. }
  destruct (orderStatus q) as [s|].
  2: { split; [|done].
       split; [by intros [? ?]|by intros [_ (? & ? & _)]]. }
  repeat case_decide; subst; (split; [|done]).
  - split; [|by eauto]. intros _. split; [done|]. eauto.
  - split; [|by eauto]. intros _. split; [done|]. eauto 6.
  - split; [|by eauto]. intros _. split; [done|]. eauto 6.
  - split; [by intros [? ?]|].
    intros [_ (s' & [= <-] & [?|[?|?]])]; done.
Qed.

End PlotManageMore.

(* ================================================================== *)
(** * Further properties of the map component *)
(* ================================================================== *)

Section MapViewMore.

Import PlotManage MapView.
#[local] Set Warnings "-inexact-float".
Local Open Scope float_scope.

(** ** Clamping *)

Lemma ltb_irrefl (x : float) : (x <? x) = false.
Proof. destruct (x <? x) eqn:H; [|done]. by rewrite (ltb_asym _ _ H) in H. Qed.

Lemma clamp_idempotent (lo hi v : float) :
  (lo <? hi) = true → clamp lo hi (clamp lo hi v) = clamp lo hi v.
Proof.
  intros Hlohi. unfold clamp.
  destruct (v <? lo) eqn:H1.
  - by rewrite ltb_irrefl, (ltb_asym _ _ Hlohi).
  - destruct (hi <? v) eqn:H2.
    + by rewrite (ltb_asym _ _ Hlohi), ltb_irrefl.
    + by rewrite H1, H2.
Qed.

Lemma clamp_fixed (lo hi v : float) :
  (lo <=? v) = true → (v <=? hi) = true → clamp lo hi v = v.
Proof.
  intros H1 H2. unfold clamp.
  by rewrite (leb_not_ltb _ _ H1), (leb_not_ltb _ _ H2).
Qed.

(** The clamped value is one of the bounds or the value itself. *)
Lemma clamp_cases (lo hi v : float) :
  clamp lo hi v = lo
  ∨ clamp lo hi v = hi
  ∨ clamp lo hi v = v ∧ (v <? lo) = false ∧ (hi <? v) = false.
Proof.
  unfold clamp. destruct (v <? lo); [by left|].
  destruct (hi <? v); [by right; left|]. by right; right.
Qed.

Lemma clamp_in_bounds (lo hi v : float) :
  is_nan lo = false → is_nan hi = false → (lo <=? hi) = true →
  is_nan v = false →
  (lo <=? clamp lo hi v) = true ∧ (clamp lo hi v <=? hi) = true.
Proof.
  intros Hlo Hhi Hlohi Hv.
  assert (∀ x, is_nan x = false → (x <=? x) = true) as Hrefl.
  { intros x Hx. pose proof (ltb_negb_leb x x Hx Hx) as H.
    rewrite ltb_irrefl in H. by destruct (x <=? x). }
  destruct (clamp_cases lo hi v) as [-> | [-> | (-> & H1 & H2)]].
  - by split; [apply Hrefl|].
  - by split; [|apply Hrefl].
  - rewrite ltb_negb_leb in H1, H2 by done.
    split; [by destruct (lo <=? v)|by destruct (v <=? hi)].
Qed.

Lemma clampedPoint_idempotent (coord : Point) :
  clampedPoint (clampedPoint coord) = clampedPoint coord.
Proof.
  unfold clampedPoint. simpl. by rewrite !clamp_idempotent.
Qed.

(** A point that passes the coordinate check is, once clamped, a pair of
    finite numbers within the geographic bounds. *)
Lemma clampedPoint_in_bounds (coord : Point) :
  coordinateCheck coord → inBoundsPoint (clampedPoint coord).
Proof.
  intros (lng & lat & others & -> & Hflng & Hflat & _).
  exists (clamp (-180) 180 lng), (clamp (-90) 90 lat).
  pose proof (is_finite_not_nan _ Hflng) as Hnlng.
  pose proof (is_finite_not_nan _ Hflat) as Hnlat.
  destruct (clamp_in_bounds (-180) 180 lng) as [? ?]; [done..|].
  destruct (clamp_in_bounds (-90) 90 lat) as [? ?]; [done..|].
  split_and!; try done.
  - by destruct (clamp_cases (-180) 180 lng) as [-> | [-> | (-> & _)]].
  - by destruct (clamp_cases (-90) 90 lat) as [-> | [-> | (-> & _)]].
Qed.

(** A clamped valid point passes the coordinate check again. *)
Lemma clampedPoint_valid (coord : Point) :
  coordinateCheck coord → coordinateCheck (clampedPoint coord).
Proof.
  intros (lng & lat & others & -> & Hflng & Hflat & H1 & H2 & H3 & H4).
  exists (clamp (-180) 180 lng), (clamp (-90) 90 lat), [].
  split; [done|].
  destruct (clamp_cases (-180) 180 lng) as [-> | [-> | (-> & _)]];
    destruct (clamp_cases (-90) 90 lat) as [-> | [-> | (-> & _)]];
    by split_and!.
Qed.

(** ** Validation: what the geometry looks like afterwards *)

Lemma validation_outcome (geometry : Geometry) :
  (fst (isValidGeometry geometry) = true
   ↔ hasRings geometry ∧ everyRingAccepted geometry)
  ∧ (fst (isValidGeometry geometry) = true →
     snd (isValidGeometry geometry) = mapRings overwrittenRing geometry).
Proof.
  assert (∀ rings : list (list Point),
            (λ ring, closeRing (normalizeCoordinate <$> ring)) <$> rings
            = overwrittenRing <$> rings) as Hrings.
  { intros rings. apply list_fmap_ext. intros i r _.
    apply closeRing_normalized. }
  destruct geometry as [rings|polygons|].
  - destruct rings as [|ring rings]; [by split; [split; [|intros [? _]]|]|].
    destruct (everyRing_spec (ring :: rings)) as [H1 H2].
    unfold isValidGeometry, hasRings, everyRingAccepted, mapRings.
    destruct (everyRing (ring :: rings)) as [ok rings']. cbn [fst snd] in *.
    split; [rewrite H1; by split; [|intros [_ ?]]|].
    intros Hok. rewrite (H2 Hok). f_equal. apply Hrings.
  - destruct polygons as [|polygon polygons];
      [by split; [split; [|intros [[? _] _]]|]|].
    destruct (everyPolygon_spec (polygon :: polygons)) as [H1 H2].
    unfold isValidGeometry, hasRings, everyRingAccepted, mapRings.
    destruct (everyPolygon (polygon :: polygons)) as [ok polygons'].
    cbn [fst snd] in *.
    split; [rewrite H1; by split; [intros [? ?]|intros [[_ ?] ?]]|].
    intros Hok. rewrite (H2 Hok). f_equal.
    apply list_fmap_ext. intros i rings _. apply Hrings.
  - by split; [split; [|intros [[] _]]|].
Qed.

Lemma overwrittenRing_length (ring : list Point) :
  length (overwrittenRing ring) = length ring.
Proof. unfold overwrittenRing. apply length_imap. Qed.

(** Every point of an overwritten ring is the clamped form of a point of
    the ring. *)
Lemma overwrittenPoint_is_clamped (ring : list Point) (i : nat)
    (coord : Point) :
  ring !! i = Some coord →
  ∃ x, x ∈ ring ∧ overwrittenPoint ring i coord = clampedPoint x.
Proof.
  intros Hi. unfold overwrittenPoint.
  destruct ring as [|p0 ring'] eqn:Hring; [done|]. rewrite <- Hring in *.
  assert (head ring = Some p0) as -> by by subst.
  destruct (_ && _).
  - exists p0. split; [subst; left|done].
  - exists coord. split; [by eapply list_elem_of_lookup_2|done].
Qed.

Lemma overwrittenRing_Forall (P : Point → Prop) (ring : list Point) :
  (∀ x, x ∈ ring → P (clampedPoint x)) → Forall P (overwrittenRing ring).
Proof.
  intros H. apply Forall_lookup. intros i q Hq.
  unfold overwrittenRing in Hq. rewrite list_lookup_imap in Hq.
  destruct (ring !! i) as [coord|] eqn:Hi; [|done]. injection Hq as <-.
  destruct (overwrittenPoint_is_clamped ring i coord Hi) as (x & Hx & ->).
  by apply H.
Qed.

Lemma last_lookup_sub {A} (l : list A) : last l = l !! (length l - 1)%nat.
Proof. rewrite last_lookup. f_equal. lia. Qed.

Lemma overwrittenRing_idempotent (ring : list Point) :
  overwrittenRing (overwrittenRing ring) = overwrittenRing ring.
Proof.
  destruct ring as [|p0 ring'] eqn:Hring; [done|]. rewrite <- Hring.
  assert (head ring = Some p0) as Hhead by by subst.
  assert (∃ pn, last ring = Some pn) as [pn Hlast].
  { destruct (last ring) eqn:E; [by eexists|].
    apply last_None in E. congruence. }
  set (first := clampedPoint p0).
  set (far := farApart first (clampedPoint pn)).
  set (final := if far then first else clampedPoint pn).
  assert (0 < length ring)%nat as Hlen by (subst; simpl; lia).
  (* the points of the overwritten ring *)
  assert (∀ i coord, ring !! i = Some coord →
            overwrittenRing ring !! i
            = Some (if bool_decide (i = length ring - 1)%nat && far
                    then first else clampedPoint coord)) as Hlook.
  { intros i coord Hi. unfold overwrittenRing.
    rewrite list_lookup_imap, Hi. simpl. unfold overwrittenPoint.
    by rewrite Hhead, Hlast. }
  assert (head (overwrittenRing ring) = Some first) as Hhead'.
  { rewrite head_lookup, (Hlook 0%nat p0) by by subst.
    by destruct (_ && _). }
  assert (last (overwrittenRing ring) = Some final) as Hlast'.
  { rewrite last_lookup_sub, overwrittenRing_length.
    rewrite (Hlook _ pn) by (by rewrite <- last_lookup_sub).
    by rewrite bool_decide_eq_true_2. }
  assert (clampedPoint final = final) as Hfinal.
  { subst final. destruct far; apply clampedPoint_idempotent. }
  assert (farApart first final = true → final = first) as Hfar.
  { subst final. fold far. destruct far eqn:E; [done|].
    unfold far in E. congruence. }
  apply list_eq. intros i.
  unfold overwrittenRing at 1. rewrite list_lookup_imap.
  destruct (overwrittenRing ring !! i) as [q|] eqn:Hq; [|done]. simpl.
  f_equal. unfold overwrittenPoint.
  rewrite Hhead', Hlast', overwrittenRing_length. simpl.
  assert (clampedPoint first = first) as ->
    by apply clampedPoint_idempotent.
  rewrite Hfinal.
  assert (clampedPoint q = q) as Hidem.
  { assert (is_Some (ring !! i)) as [coord Hi].
    { apply lookup_lt_is_Some. rewrite <- overwrittenRing_length.
      by eapply lookup_lt_Some. }
    rewrite (Hlook _ _ Hi) in Hq. injection Hq as <-.
    destruct (_ && _); apply clampedPoint_idempotent. }
  case_bool_decide as Hi; simpl; [|done].
  destruct (farApart first final) eqn:E; [|done].
  subst i. rewrite last_lookup_sub, overwrittenRing_length in Hlast'.
  rewrite Hq in Hlast'. injection Hlast' as ->. symmetry. by apply Hfar.
Qed.

(** X9.  After a validation that returned true, every point of the
    geometry is a two-element array of finite numbers, the first within
    [-180, 180] and the second within [-90, 90]. *)
Theorem validated_points_in_bounds (geometry : Geometry) :
  fst (isValidGeometry geometry) = true →
  everyPoint inBoundsPoint (snd (isValidGeometry geometry)).
Proof.
  intros Hok. destruct (validation_outcome geometry) as [H1 H2].
  rewrite (H2 Hok). apply H1 in Hok as [_ Hacc].
  assert (∀ ring, ringAccepted ring →
            Forall inBoundsPoint (overwrittenRing ring)) as Hring.
  { intros ring [_ Hring]. apply overwrittenRing_Forall.
    intros x Hx. apply clampedPoint_in_bounds.
    by eapply Forall_forall in Hring. }
  destruct geometry as [rings|polygons|]; simpl in *; [| |done].
  - apply Forall_fmap. eapply Forall_impl; [exact Hacc|]. apply Hring.
  - apply Forall_fmap. eapply Forall_impl; [exact Hacc|].
    intros rings Hrings. apply Forall_fmap.
    eapply Forall_impl; [exact Hrings|]. apply Hring.
Qed.

(** X10.  Validation is idempotent: a geometry that has been accepted is
    accepted again, and the second pass leaves it exactly as the first
    pass left it.  (A render validates the same geometries twice, once
    for the vector layer and once for the labels.) *)
Theorem isValidGeometry_idempotent (geometry : Geometry) :
  fst (isValidGeometry geometry) = true →
  isValidGeometry (snd (isValidGeometry geometry))
    = (true, snd (isValidGeometry geometry)).
Proof.
  intros Hok. destruct (validation_outcome geometry) as [H1 H2].
  rewrite (H2 Hok). apply H1 in Hok as [Hhas Hacc].
  set (g' := mapRings overwrittenRing geometry).
  assert (∀ ring, ringAccepted ring → ringAccepted (overwrittenRing ring))
    as Hring.
  { intros ring [Hlen Hring]. split; [by rewrite overwrittenRing_length|].
    apply overwrittenRing_Forall. intros x Hx. apply clampedPoint_valid.
    by eapply Forall_forall in Hring. }
  destruct (validation_outcome g') as [H1' H2'].
  assert (fst (isValidGeometry g') = true) as Hok'.
  { apply H1'. subst g'.
    destruct geometry as [rings|polygons|]; simpl in *; [| |done].
    - split; [by destruct rings|].
      apply Forall_fmap. eapply Forall_impl; [exact Hacc|]. apply Hring.
    - destruct Hhas as [Hne Hhas]. split; [split; [by destruct polygons|]|].
      + apply Forall_fmap. eapply Forall_impl; [exact Hhas|].
        intros rings. by destruct rings.
      + apply Forall_fmap. eapply Forall_impl; [exact Hacc|].
        intros rings Hrings. apply Forall_fmap.
        eapply Forall_impl; [exact Hrings|]. apply Hring. }
  specialize (H2' Hok').
  destruct (isValidGeometry g') as [ok g'']. simpl in *. subst ok g''.
  f_equal. subst g'.
  destruct geometry as [rings|polygons|]; simpl; [| |done]; f_equal.
  - rewrite <- list_fmap_compose. apply list_fmap_ext.
    intros i ring _. apply overwrittenRing_idempotent.
  - rewrite <- list_fmap_compose. apply list_fmap_ext.
    intros i rings _. simpl. rewrite <- list_fmap_compose.
    apply list_fmap_ext. intros j ring _. apply overwrittenRing_idempotent.
Qed.

(** X11.  The clamping [renderPlots] applies to the geometries it hands
    to the vector layer changes nothing: on a geometry that passed
    [isValidGeometry] it returns the geometry as it is. *)
Theorem geometryForRender_is_identity (geometry : Geometry) :
  fst (isValidGeometry geometry) = true →
  geometryForRender (snd (isValidGeometry geometry))
    = snd (isValidGeometry geometry).
Proof.
  intros Hok. destruct (validation_outcome geometry) as [_ H2].
  rewrite (H2 Hok).
  assert (∀ ring, normalizeCoordinate <$> overwrittenRing ring
                  = overwrittenRing ring) as Hring.
  { intros ring. apply list_eq. intros i. rewrite list_lookup_fmap.
    unfold overwrittenRing. rewrite list_lookup_imap.
    destruct (ring !! i) as [coord|] eqn:Hi; [|done]. simpl. f_equal.
    destruct (overwrittenPoint_is_clamped ring i coord Hi) as (x & _ & ->).
    rewrite normalizeCoordinate_clamps. apply clampedPoint_idempotent. }
  assert (∀ rings : list (list Point),
            fmap (M:=list) normalizeCoordinate <$> (overwrittenRing <$> rings)
            = overwrittenRing <$> rings) as Hrings.
  { intros rings. rewrite <- list_fmap_compose. apply list_fmap_ext.
    intros i ring _. apply Hring. }
  destruct geometry as [rings|polygons|]; simpl; [| |done]; f_equal.
  - apply Hrings.
  - rewrite <- list_fmap_compose. apply list_fmap_ext.
    intros i rings _. apply Hrings.
Qed.

Lemma normalizeLoop_length (ring : list Point) :
  length (snd (normalizeLoop ring)) = length ring.
Proof.
  induction ring as [|coord ring IH]; [done|]. simpl.
  destruct (isValidCoordinate coord); [|done].
  destruct (normalizeLoop ring). simpl in *. by rewrite IH.
Qed.

Lemma closeRing_length (ring : list Point) :
  length (closeRing ring) = length ring.
Proof.
  unfold closeRing. destruct (head ring), (last ring); try done.
  destruct (_ || _); [|done]. apply length_insert.
Qed.

Lemma checkRing_length (ring : list Point) :
  length (snd (checkRing ring)) = length ring.
Proof.
  unfold checkRing. destruct (length ring <? 4)%nat; [done|].
  pose proof (normalizeLoop_length ring) as H.
  destruct (normalizeLoop ring) as [[] ring']; simpl in *; [|done].
  by rewrite closeRing_length.
Qed.

Lemma everyRing_lengths (rings : list (list Point)) :
  length <$> snd (everyRing rings) = length <$> rings.
Proof.
  induction rings as [|ring rings IH]; [done|].
  cbn [everyRing]. pose proof (checkRing_length ring) as H.
  destruct (checkRing ring) as [[] ring']; cbn [fst snd] in *.
  - destruct (everyRing rings) as [ok rings']. cbn [fst snd] in *.
    rewrite !fmap_cons. by f_equal.
  - rewrite !fmap_cons. by f_equal.
Qed.

Lemma everyPolygon_lengths (polygons : list (list (list Point))) :
  fmap (M:=list) length <$> snd (everyPolygon polygons)
  = fmap (M:=list) length <$> polygons.
Proof.
  induction polygons as [|polygon polygons IH]; [done|].
  cbn [everyPolygon].
  assert (length <$> snd (checkPolygon polygon) = length <$> polygon) as H.
  { destruct polygon; [done|]. apply everyRing_lengths. }
  destruct (checkPolygon polygon) as [[] polygon']; cbn [fst snd] in *.
  - destruct (everyPolygon polygons) as [ok polygons']. cbn [fst snd] in *.
    rewrite !fmap_cons. by f_equal.
  - rewrite !fmap_cons. by f_equal.
Qed.

(** X12.  Whether it accepts or rejects, [isValidGeometry] never adds or
    removes a point, a ring or a polygon: the geometry keeps its type and
    the length of every ring. *)
Theorem isValidGeometry_keeps_shape (geometry : Geometry) :
  shapeOf (snd (isValidGeometry geometry)) = shapeOf geometry.
Proof.
  destruct geometry as [rings|polygons|]; [| |done].
  - destruct rings as [|ring rings]; [done|].
    pose proof (everyRing_lengths (ring :: rings)) as H.
    unfold isValidGeometry.
    destruct (everyRing (ring :: rings)). cbn [fst snd shapeOf] in *.
    by rewrite H.
  - destruct polygons as [|polygon polygons]; [done|].
    pose proof (everyPolygon_lengths (polygon :: polygons)) as H.
    unfold isValidGeometry.
    destruct (everyPolygon (polygon :: polygons)). cbn [fst snd shapeOf] in *.
    by rewrite H.
Qed.

(** ** Centroid and labels *)

Lemma centroid_main_path (ring : list (list float))
    (others : list (list (list float))) :
  (4 ≤ length ring)%nat →
  (1e-10 <=? abs (shoelaceSum ring)) = true →
  getPolygonCentroid (ring :: others)
    = (clamp (-180) 180 (fst (signedAreaCentroid ring)),
       clamp (-90) 90 (snd (signedAreaCentroid ring))).
Proof.
  intros Hlen Harea. unfold getPolygonCentroid. simpl.
  destruct (Nat.ltb_spec (length ring) 4) as [?|_]; [lia|].
  rewrite centroidLoop_sums.
  fold (sumOverEdges crossTerm ring). fold (shoelaceSum ring).
  rewrite (leb_not_ltb _ _ Harea).
  by rewrite !Math_max_min_clamp.
Qed.

Lemma clamp_nan_or_in_bounds (lo hi v : float) :
  is_nan lo = false → is_nan hi = false → (lo <=? hi) = true →
  (is_nan v = true ∧ clamp lo hi v = nan)
  ∨ (is_nan (clamp lo hi v) = false
     ∧ (lo <=? clamp lo hi v) = true ∧ (clamp lo hi v <=? hi) = true).
Proof.
  intros Hlo Hhi Hlohi. destruct (is_nan v) eqn:Hv.
  - left. split; [done|]. apply is_nan_eq in Hv. subst v. unfold clamp.
    by rewrite !FloatAxioms.ltb_spec;
      destruct (Prim2SF lo), (Prim2SF hi).
  - right. split; [|by apply clamp_in_bounds].
    by destruct (clamp_cases lo hi v) as [-> | [-> | (-> & _)]].
Qed.

(** X13.  On its main path (a ring of at least four points whose shoelace
    sum has magnitude at least 1e-10) [getPolygonCentroid] returns, in each
    coordinate, either [NaN] or a number within the geographic bounds. *)
Theorem centroid_main_path_in_bounds (ring : list (list float))
    (others : list (list (list float))) :
  (4 ≤ length ring)%nat →
  (1e-10 <=? abs (shoelaceSum ring)) = true →
  let c := getPolygonCentroid (ring :: others) in
  (fst c = nan ∨ (-180 <=? fst c) = true ∧ (fst c <=? 180) = true)
  ∧ (snd c = nan ∨ (-90 <=? snd c) = true ∧ (snd c <=? 90) = true).
Proof.
  intros Hlen Harea c. subst c. rewrite centroid_main_path by done.
  cbn [fst snd]. split.
  - destruct (clamp_nan_or_in_bounds (-180) 180
                (fst (signedAreaCentroid ring))) as [[_ ->]|(_ & ? & ?)];
      [done..|by left|by right].
  - destruct (clamp_nan_or_in_bounds (-90) 90
                (snd (signedAreaCentroid ring))) as [[_ ->]|(_ & ? & ?)];
      [done..|by left|by right].
Qed.

(** X14.  A label is only ever placed at a position within the geographic
    bounds, and the position handed to the marker is (latitude,
    longitude), the centroid with its coordinates swapped. *)
Theorem labelPosition_in_bounds (geometry : Geometry) (lat lng : float) :
  labelPosition geometry = Some (lat, lng) →
  (-90 <=? lat) = true ∧ (lat <=? 90) = true
  ∧ (-180 <=? lng) = true ∧ (lng <=? 180) = true.
Proof.
  unfold labelPosition.
  destruct (match geometry with
            | Polygon rings => _ | MultiPolygon [] => _
            | MultiPolygon (_ :: _) => _ | OtherGeometry => _
            end) as [[x y]|]; [|done].
  destruct (is_nan x) eqn:Hx; [done|].
  destruct (is_nan y) eqn:Hy; [done|]. simpl.
  rewrite !ltb_negb_leb by done.
  destruct (-180 <=? x) eqn:H1; [|done].
  destruct (x <=? 180) eqn:H2; [|done].
  destruct (-90 <=? y) eqn:H3; [|done].
  destruct (y <=? 90) eqn:H4; [|done].
  simpl. by intros [= <- <-].
Qed.

(** X15.  For a polygon whose outer ring is on the main path of
    [getPolygonCentroid] and whose signed-area centroid is not [NaN], a
    label is placed, at the clamped centroid: the bounds guard of the
    label code never drops such a label. *)
Theorem label_placed_on_main_path (outer : list Point)
    (holes : list (list Point)) :
  let ring := numbersOf <$> outer in
  (4 ≤ length outer)%nat →
  (1e-10 <=? abs (shoelaceSum ring)) = true →
  is_nan (fst (signedAreaCentroid ring)) = false →
  is_nan (snd (signedAreaCentroid ring)) = false →
  labelPosition (Polygon (outer :: holes))
    = Some (clamp (-90) 90 (snd (signedAreaCentroid ring)),
            clamp (-180) 180 (fst (signedAreaCentroid ring))).
Proof.
  intros ring Hlen Harea Hx Hy. unfold labelPosition, ringsAsNumbers.
  rewrite fmap_cons. fold ring.
  rewrite centroid_main_path by (by unfold ring; rewrite ?length_fmap).
  destruct (clamp_nan_or_in_bounds (-180) 180
              (fst (signedAreaCentroid ring))) as [[? _]|(-> & H1 & H2)];
    [done..|congruence|].
  destruct (clamp_nan_or_in_bounds (-90) 90
              (snd (signedAreaCentroid ring))) as [[? _]|(-> & H3 & H4)];
    [done..|congruence|].
  by rewrite (leb_not_ltb _ _ H1), (leb_not_ltb _ _ H2),
    (leb_not_ltb _ _ H3), (leb_not_ltb _ _ H4).
Qed.

(** ** Label chunks *)

Lemma processChunks_from {A} (plots : list A) (chunkSize : nat) :
  (0 < chunkSize)%nat →
  ∀ frames index,
    (length plots - index < frames)%nat →
    ∃ chunks,
      processChunks frames plots chunkSize index = Some chunks
      ∧ concat chunks = drop index plots
      ∧ Forall (λ chunk, length chunk ≤ chunkSize)%nat chunks
      ∧ length chunks = S ((length plots - index - 1) / chunkSize).
Proof.
  intros Hsize. induction frames as [|frames IH]; intros index Hfuel; [lia|].
  simpl. destruct (Nat.ltb_spec (index + chunkSize) (length plots)) as [Hlt|Hge].
  - destruct (IH (index + chunkSize)%nat) as (chunks & -> & Hcat & Hall & Hn);
      [lia|].
    eexists. split; [done|]. split_and!.
    + simpl. rewrite Hcat, <- drop_drop. apply take_drop.
    + constructor; [|done]. rewrite length_take. lia.
    + simpl. rewrite Hn. f_equal.
      replace (length plots - index - 1)%nat
        with ((length plots - (index + chunkSize) - 1) + 1 * chunkSize)%nat
        by lia.
      rewrite Nat.div_add by lia. lia.
  - eexists. split; [done|]. split_and!.
    + simpl. rewrite app_nil_r. apply take_ge. rewrite length_drop. lia.
    + constructor; [|done]. rewrite length_take. lia.
    + simpl. rewrite Nat.div_small by lia. done.
Qed.

(** X16.  With a positive chunk size [processLabelsInChunks] comes to an
    end and handles every plot exactly once, in order: the chunks of the
    successive frames, put end to end, are the list of plots; no chunk
    exceeds the chunk size; and the number of frames is
    [1 + (n - 1) / chunkSize] for [n] plots (one frame for none). *)
Theorem processLabelsInChunks_covers {A} (plots : list A) (chunkSize : nat) :
  (0 < chunkSize)%nat →
  ∃ chunks,
    processChunks (S (length plots)) plots chunkSize 0 = Some chunks
    ∧ concat chunks = plots
    ∧ Forall (λ chunk, length chunk ≤ chunkSize)%nat chunks
    ∧ length chunks = S ((length plots - 1) / chunkSize).
Proof.
  intros Hsize.
  destruct (processChunks_from plots chunkSize Hsize (S (length plots)) 0)
    as (chunks & Hrun & Hcat & Hall & Hn); [lia|].
  exists chunks. rewrite Nat.sub_0_r in Hn. by rewrite drop_0 in Hcat.
Qed.

End MapViewMore.

(** ** Styling, loading and the optimistic update *)

Section MapViewStateMore.

Import PlotManage MapView.
#[local] Set Warnings "-inexact-float".
Context {Rest : Type}.
Implicit Types (q : PlotWithOrderStatus Rest) (st : ViewState Rest).

(** X17.  A plot whose order was rejected is drawn exactly like an
    available plot without an order: the same style, hovered or not, and
    the same badge class. *)
Theorem rejected_order_styled_as_available q q' (isHovered : bool) :
  hasActiveOrder q = true → orderStatus q = Some "rejected" →
  hasActiveOrder q' = false → status q' = "available" →
  getPlotStyle q isHovered = getPlotStyle q' isHovered
  ∧ getStatusBadgeClass q = getStatusBadgeClass q'.
Proof.
  intros H1 H2 H3 H4. unfold getPlotStyle, getStatusBadgeClass.
  by rewrite H1, H2, H3, H4.
Qed.

(** X18.  Hovering never changes a fill colour, a dash pattern, a border
    colour or the opacity: for every plot it only raises the border weight
    from 2 to 4 and the fill opacity. *)
Theorem hover_changes_weight_and_fill_opacity_only q :
  let plain := getPlotStyle q false in
  let hovered := getPlotStyle q true in
  fillColor hovered = fillColor plain
  ∧ dashArray hovered = dashArray plain
  ∧ color hovered = color plain
  ∧ opacity hovered = opacity plain
  ∧ weight plain = 2%Z ∧ weight hovered = 4%Z
  ∧ (fillOpacity plain <? fillOpacity hovered)%float = true.
Proof.
  unfold getPlotStyle. destruct (hasActiveOrder q).
  - destruct (orderStatus q) as [s|]; [|by split_and!].
    repeat case_decide; by split_and!.
  - repeat case_decide; by split_and!.
Qed.

(** X19.  The optimistic update keeps the length and the order of the
    plot list, leaves every plot with another id as it is, and turns
    every plot with the selected id into a pending order, on which the
    order button is hidden and the button text is "Order Pending". *)
Theorem optimistic_update_spec st (selected : PlotWithOrderStatus Rest)
    (orderData : OrderData) (nowIso : string) (i : nat) q :
  selectedPlot st = Some selected →
  plots st !! i = Some q →
  let updated := plots (fst (submitStart orderData nowIso st)) in
  length updated = length (plots st)
  ∧ (id q ≠ id selected → updated !! i = Some q)
  ∧ (id q = id selected →
     ∃ q', updated !! i = Some q'
       ∧ id q' = id q ∧ rest q' = rest q
       ∧ status q' = "pending" ∧ hasActiveOrder q' = true
       ∧ orderStatus q' = Some "pending"
       ∧ shouldShowOrderButton q' = false
       ∧ getOrderButtonText q' = "Order Pending").
Proof.
  intros Hsel Hq updated. subst updated. unfold submitStart.
  rewrite Hsel. simpl. split_and!.
  - by rewrite length_fmap.
  - intros Hne. rewrite list_lookup_fmap, Hq. simpl.
    by rewrite decide_False.
  - intros Heq. rewrite list_lookup_fmap, Hq. simpl.
    rewrite decide_True by done. eexists. by split_and!.
Qed.

End MapViewStateMore.

Section LoadPlotsFacts.

Import PlotManage MapView.
Context {P : Type} (plotsHash : list P → string).
Implicit Types (st : LoadState P) (r : LoadResult P).

Lemma loadPlotsRun_failed_attempt (retryCount : nat) r
    (results : list (LoadResult P)) st (err : ThrownValue) :
  loadingRef st = false → loadFailure r = Some err →
  (retryCount < maxRetries)%nat →
  ∃ st', loadingRef st' = false
    ∧ loadedPlots st' = loadedPlots st
    ∧ lastPlotsHash st' = lastPlotsHash st
    ∧ loadPlotsRun plotsHash retryCount (r :: results) st
      = (fst (loadPlotsRun plotsHash (S retryCount) results st'),
         (2000 * (Z.of_nat retryCount + 1))%Z
           :: snd (loadPlotsRun plotsHash (S retryCount) results st')).
Proof.
  intros Href Hfail Hlt. cbn [loadPlotsRun]. rewrite Href.
  unfold attemptSettle. rewrite Hfail.
  destruct (Nat.ltb_spec retryCount maxRetries) as [_|?]; [|lia].
  match goal with
  | |- context [loadPlotsRun _ _ _ ?s] => exists s
  end.
  split_and!; [done..|]. by destruct (loadPlotsRun _ _ _ _).
Qed.

(** X20.  When four attempts in a row fail (the request rejects, or it
    resolves with nothing or with an empty list), [loadPlots] waits 2, 4
    and 6 seconds between them and then gives up: it makes no fifth
    attempt, reports the message of the last failure, clears the loading
    flag and keeps the plots it had. *)
Theorem loadPlots_gives_up_after_three_retries st
    (r0 r1 r2 r3 : LoadResult P) (more : list (LoadResult P))
    (e0 e1 e2 e3 : ThrownValue) :
  loadingRef st = false →
  loadFailure r0 = Some e0 → loadFailure r1 = Some e1 →
  loadFailure r2 = Some e2 → loadFailure r3 = Some e3 →
  ∃ final,
    loadPlotsRun plotsHash 0 (r0 :: r1 :: r2 :: r3 :: more) st
      = (final, [2000; 4000; 6000]%Z)
    ∧ loadError final = Some ("Failed to load plots: " ++ errorMessage e3)
    ∧ loading final = false
    ∧ connectionStatus final = Disconnected
    ∧ loadingRef final = false
    ∧ loadedPlots final = loadedPlots st.
Proof.
  intros Href H0 H1 H2 H3.
  destruct (loadPlotsRun_failed_attempt 0 r0 (r1 :: r2 :: r3 :: more)
              st e0) as (st1 & Hr1 & Hp1 & _ & ->);
    [done|done|unfold maxRetries; lia|].
  destruct (loadPlotsRun_failed_attempt 1 r1 (r2 :: r3 :: more)
              st1 e1) as (st2 & Hr2 & Hp2 & _ & ->);
    [done|done|unfold maxRetries; lia|].
  destruct (loadPlotsRun_failed_attempt 2 r2 (r3 :: more)
              st2 e2) as (st3 & Hr3 & Hp3 & _ & ->);
    [done|done|unfold maxRetries; lia|].
  cbn [loadPlotsRun fst snd]. rewrite Hr3. unfold attemptSettle.
  rewrite H3. simpl. eexists. split; [done|]. simpl.
  split_and!; try done. congruence.
Qed.

(** X21.  [loadPlots] never waits for more than three retry timers, and
    the delays it waits for are an initial part of 2000, 4000, 6000
    milliseconds, whatever the outcomes of the requests. *)
Theorem loadPlots_backoff_bounded (results : list (LoadResult P)) st :
  snd (loadPlotsRun plotsHash 0 results st) `prefix_of` [2000; 4000; 6000]%Z.
Proof.
  assert (∀ retryCount results st,
            snd (loadPlotsRun plotsHash retryCount results st) `prefix_of`
              ((λ k, 2000 * (Z.of_nat k + 1))%Z
                 <$> seq retryCount (maxRetries - retryCount))) as H.
  { intros retryCount results'. revert retryCount.
    induction results' as [|r results' IH]; intros retryCount st'.
    - cbn [loadPlotsRun]. destruct (loadingRef st'); apply prefix_nil.
    - cbn [loadPlotsRun]. destruct (loadingRef st'); [apply prefix_nil|].
      unfold attemptSettle. destruct (loadFailure r) as [err|];
        [|apply prefix_nil].
      destruct (Nat.ltb_spec retryCount maxRetries) as [Hlt|?];
        [|apply prefix_nil].
      match goal with
      | |- context [loadPlotsRun _ _ _ ?s] =>
          specialize (IH (S retryCount) s);
          destruct (loadPlotsRun plotsHash (S retryCount) results' s)
      end.
      cbn [snd] in *.
      replace (maxRetries - retryCount)%nat
        with (S (maxRetries - S retryCount)) by lia.
      cbn [seq fmap list_fmap]. by apply prefix_cons. }
  apply (H 0%nat).
Qed.

(** X22.  When an attempt succeeds after [k] failed ones ([k] at most
    three), [loadPlots] stops there: the connection is reported as
    connected, no error is set, the plots are replaced exactly when their
    hash differs from the last rendered one, and the loading flag is left
    set (it is [renderPlots] that clears it). *)
Theorem loadPlots_succeeds_after_failures st
    (failed : list (LoadResult P)) (plotsData : list P)
    (more : list (LoadResult P)) :
  loadingRef st = false →
  Forall (λ r, is_Some (loadFailure r)) failed →
  (length failed ≤ maxRetries)%nat →
  plotsData ≠ [] →
  ∃ final,
    loadPlotsRun plotsHash 0
      (failed ++ PlotsResolved (Some plotsData) :: more) st
      = (final, take (length failed) [2000; 4000; 6000]%Z)
    ∧ connectionStatus final = Connected
    ∧ loadError final = None
    ∧ loading final = true
    ∧ loadingRef final = false
    ∧ loadedPlots final
      = if decide (plotsHash plotsData = lastPlotsHash st)
        then loadedPlots st else plotsData.
Proof.
  intros Href Hfailed Hlen Hdata.
  assert (∀ failed retryCount st,
            loadingRef st = false →
            Forall (λ r, is_Some (loadFailure r)) failed →
            (retryCount + length failed ≤ maxRetries)%nat →
            ∃ final,
              loadPlotsRun plotsHash retryCount
                (failed ++ PlotsResolved (Some plotsData) :: more) st
                = (final,
                   (λ k, 2000 * (Z.of_nat k + 1))%Z
                     <$> seq retryCount (length failed))
              ∧ connectionStatus final = Connected
              ∧ loadError final = None
              ∧ loading final = true
              ∧ loadingRef final = false
              ∧ loadedPlots final
                = if decide (plotsHash plotsData = lastPlotsHash st)
                  then loadedPlots st else plotsData) as H.
  { clear st Href failed Hfailed Hlen.
    induction failed as [|r failed IH]; intros retryCount st Href Hfailed Hlen.
    - cbn [app loadPlotsRun]. rewrite Href. unfold attemptSettle.
      assert (loadFailure (PlotsResolved (Some plotsData)) = None) as ->
        by by destruct plotsData.
      eexists. split; [done|]. by split_and!.
    - apply Forall_cons in Hfailed as [[err Herr] Hfailed].
      simpl in Hlen.
      destruct (loadPlotsRun_failed_attempt retryCount r
                  (failed ++ PlotsResolved (Some plotsData) :: more) st err)
        as (st' & Href' & Hp' & Hh' & Hrun); [done|done|lia|].
      destruct (IH (S retryCount) st') as (final & Hfinal & ? & ? & ? & ? & Hp);
        [done|done|lia|].
      exists final. rewrite <- app_comm_cons, Hrun, Hfinal.
      split; [done|]. split_and!; try done.
      by rewrite Hp, Hp', Hh'. }
  destruct (H failed 0%nat st) as (final & Hfinal & ?); [done|done|lia|].
  exists final. split; [|done]. rewrite Hfinal. f_equal.
  unfold maxRetries in Hlen.
  destruct failed as [|? [|? [|? [|? ?]]]]; simpl in *; try done; lia.
Qed.

End LoadPlotsFacts.

(** ** Concrete instances of the further properties *)

Section MoreInstances.

Import PlotManage MapView.
#[local] Set Warnings "-inexact-float".

Lemma in_flight_response_is_stored_witness :
  service
    (run ([Invalidate; Call 1700000000000]
            ++ [BodySettles 0 (JsonData (Some (OPArray [Some orderA])))
                  1700000000200])
       {| service := {| orderedPlotsCache := OPArray [];
                        cacheTimestamp := 0; isLoading := true |};
          tasks := [ReadingBody]; requests := 1 |})
  = {| orderedPlotsCache := OPArray [Some orderA];
       cacheTimestamp := 1700000000200; isLoading := false |}.
Proof.
  apply (in_flight_response_is_stored
           {| service := {| orderedPlotsCache := OPArray [];
                            cacheTimestamp := 0; isLoading := true |};
              tasks := [ReadingBody]; requests := 1 |}
           0 [Invalidate; Call 1700000000000]
           (JsonData (Some (OPArray [Some orderA]))) [Some orderA]
           1700000000200).
  - reflexivity.
  - reflexivity.
  - intros i t Hi _. destruct i as [|i]; [reflexivity|discriminate Hi].
  - repeat constructor.
  - reflexivity.
Defined.

Lemma order_success_forces_refetch_witness :
  issuedRequest
    (callStep 1700000000000
       (managementService
          (submitFinish [] OrderCreated
             {| plots := [withoutOrder plotA]; selectedPlot := None;
                orderError := None; isModalOpen := true;
                managementService :=
                  {| orderedPlotsCache := OPArray [Some orderA];
                     cacheTimestamp := 1699999999000;
                     isLoading := false |} |})))
  = true.
Proof.
  apply (order_success_forces_refetch []
           {| plots := [withoutOrder plotA]; selectedPlot := None;
              orderError := None; isModalOpen := true;
              managementService :=
                {| orderedPlotsCache := OPArray [Some orderA];
                   cacheTimestamp := 1699999999000;
                   isLoading := false |} |} 1700000000000).
  - reflexivity.
  - discriminate.
Defined.

Lemma enriched_button_iff_available_witness :
  shouldShowOrderButton (enrichPlot {[ "P-1" := orderA ]} plotA) = true
  ↔ status (enrichPlot {[ "P-1" := orderA ]} plotA) = "available".
Proof.
  apply (enriched_button_iff_available
           (Returned (OPArray [Some orderA])) [plotA; plotB]
           (enrichPlot {[ "P-1" := orderA ]} <$> [plotA; plotB])).
  - intros l op [= <-] Hin. apply list_elem_of_singleton in Hin.
    injection Hin as ->. right. left. reflexivity.
  - reflexivity.
  - left.
Defined.

Lemma button_text_when_shown_witness :
  getOrderButtonText (withoutOrder plotA) = "Order This Plot".
Proof. apply (button_text_when_shown (withoutOrder plotA)). reflexivity. Defined.

Lemma validated_points_in_bounds_witness :
  everyPoint inBoundsPoint (snd (isValidGeometry (Polygon [openRing]))).
Proof.
  apply (validated_points_in_bounds (Polygon [openRing])).
  vm_compute. reflexivity.
Defined.

Lemma isValidGeometry_idempotent_witness :
  isValidGeometry (snd (isValidGeometry (Polygon [openRing])))
  = (true, snd (isValidGeometry (Polygon [openRing]))).
Proof.
  apply (isValidGeometry_idempotent (Polygon [openRing])).
  vm_compute. reflexivity.
Defined.

Lemma geometryForRender_is_identity_witness :
  geometryForRender (snd (isValidGeometry (Polygon [openRing])))
  = snd (isValidGeometry (Polygon [openRing])).
Proof.
  apply (geometryForRender_is_identity (Polygon [openRing])).
  vm_compute. reflexivity.
Defined.

Lemma centroid_main_path_in_bounds_witness :
  let c := getPolygonCentroid [bowtieRing] in
  (fst c = nan ∨ (-180 <=? fst c)%float = true ∧ (fst c <=? 180)%float = true)
  ∧ (snd c = nan ∨ (-90 <=? snd c)%float = true ∧ (snd c <=? 90)%float = true).
Proof.
  apply (centroid_main_path_in_bounds bowtieRing []).
  - simpl. lia.
  - vm_compute. reflexivity.
Defined.

Lemma labelPosition_in_bounds_witness :
  ((-90 <=? 1) = true ∧ (1 <=? 90) = true
   ∧ (-180 <=? 1) = true ∧ (1 <=? 180) = true)%float.
Proof.
  apply (labelPosition_in_bounds (Polygon [asRing squareRing]) 1 1).
  vm_compute. reflexivity.
Defined.

Lemma label_placed_on_main_path_witness :
  labelPosition (Polygon [asRing bowtieRing])
  = Some (clamp (-90) 90
            (snd (signedAreaCentroid (numbersOf <$> asRing bowtieRing))),
          clamp (-180) 180
            (fst (signedAreaCentroid (numbersOf <$> asRing bowtieRing)))).
Proof.
  apply (label_placed_on_main_path (asRing bowtieRing) []).
  - simpl. lia.
  - vm_compute. reflexivity.
  - vm_compute. reflexivity.
  - vm_compute. reflexivity.
Defined.

Lemma processLabelsInChunks_covers_witness :
  ∃ chunks,
    processChunks 6 [1; 2; 3; 4; 5]%nat 2 0 = Some chunks
    ∧ concat chunks = [1; 2; 3; 4; 5]%nat
    ∧ Forall (λ chunk, length chunk ≤ 2)%nat chunks
    ∧ length chunks = 3%nat.
Proof.
  apply (processLabelsInChunks_covers [1; 2; 3; 4; 5]%nat 2). lia.
Defined.

Lemma rejected_order_styled_as_available_witness :
  getPlotStyle
    {| plot := plotB; hasActiveOrder := true;
       orderStatus := Some "rejected"; orderDate := None;
       customerName := None |} true
  = getPlotStyle (withoutOrder plotA) true
  ∧ getStatusBadgeClass
      {| plot := plotB; hasActiveOrder := true;
         orderStatus := Some "rejected"; orderDate := None;
         customerName := None |}
    = getStatusBadgeClass (withoutOrder plotA).
Proof.
  apply (rejected_order_styled_as_available
           {| plot := plotB; hasActiveOrder := true;
              orderStatus := Some "rejected"; orderDate := None;
              customerName := None |} (withoutOrder plotA) true);
    reflexivity.
Defined.

Lemma optimistic_update_spec_witness :
  ∃ q' : PlotWithOrderStatus unit,
    plots (fst (submitStart {| first_name := "Asha"; last_name := "Mrema" |}
                  "2025-01-01T00:00:00.000Z"
                  {| plots := [withoutOrder plotA; withoutOrder plotB];
                     selectedPlot := Some (withoutOrder plotA);
                     orderError := None; isModalOpen := true;
                     managementService := newService |})) !! 0%nat
    = Some q'
    ∧ status q' = "pending"
    ∧ shouldShowOrderButton q' = false.
Proof.
  destruct (optimistic_update_spec
              {| plots := [withoutOrder plotA; withoutOrder plotB];
                 selectedPlot := Some (withoutOrder plotA);
                 orderError := None; isModalOpen := true;
                 managementService := newService |}
              (withoutOrder plotA)
              {| first_name := "Asha"; last_name := "Mrema" |}
              "2025-01-01T00:00:00.000Z" 0 (withoutOrder plotA)
              eq_refl eq_refl) as (_ & _ & H).
  destruct (H eq_refl) as (q' & Hq' & _ & _ & Hs & _ & _ & Hb & _).
  exists q'. split; [exact Hq'|]. split; [exact Hs|exact Hb].
Defined.

Lemma loadPlots_gives_up_after_three_retries_witness :
  ∃ final,
    loadPlotsRun (λ _ : list nat, "") 0
      [PlotsRejected (ErrorObject "offline"); PlotsResolved None;
       PlotsResolved (Some []); PlotsRejected OtherThrown;
       PlotsResolved (Some [7%nat])]
      {| loadedPlots := []; loading := false; loadError := None;
         connectionStatus := Checking; loadingRef := false;
         lastPlotsHash := "" |}
    = (final, [2000; 4000; 6000]%Z)
    ∧ loadError final = Some "Failed to load plots: Unknown error occurred".
Proof.
  destruct (loadPlots_gives_up_after_three_retries (λ _ : list nat, "")
              {| loadedPlots := []; loading := false; loadError := None;
                 connectionStatus := Checking; loadingRef := false;
                 lastPlotsHash := "" |}
              (PlotsRejected (ErrorObject "offline")) (PlotsResolved None)
              (PlotsResolved (Some [])) (PlotsRejected OtherThrown)
              [PlotsResolved (Some [7%nat])] _ _ _ _
              eq_refl eq_refl eq_refl eq_refl eq_refl)
    as (final & Hrun & Herr & _).
  exists final. split; [exact Hrun|exact Herr].
Defined.

Lemma loadPlots_succeeds_after_failures_witness :
  ∃ final,
    loadPlotsRun (λ _ : list nat, "new") 0
      ([PlotsRejected OtherThrown] ++ PlotsResolved (Some [7%nat]) :: [])
      {| loadedPlots := []; loading := false; loadError := None;
         connectionStatus := Checking; loadingRef := false;
         lastPlotsHash := "old" |}
    = (final, [2000]%Z)
    ∧ connectionStatus final = Connected
    ∧ loadedPlots final = [7%nat].
Proof.
  destruct (loadPlots_succeeds_after_failures (λ _ : list nat, "new")
              {| loadedPlots := []; loading := false; loadError := None;
                 connectionStatus := Checking; loadingRef := false;
                 lastPlotsHash := "old" |}
              [PlotsRejected OtherThrown] [7%nat] [])
    as (final & Hrun & Hconn & _ & _ & _ & Hplots).
  - reflexivity.
  - repeat constructor. exists OtherThrown. reflexivity.
  - unfold maxRetries. simpl. lia.
  - discriminate.
  - exists final. split; [exact Hrun|]. split; [exact Hconn|exact Hplots].
Defined.

End MoreInstances.
